(** * ServoSweeper: a verification of [main.ts]

    A shallow embedding of the [ServoSweeper] namespace of [main.ts]:
    the [Servo] class (angle to pulse conversion, [setAngle], the blocking
    [sweep] loop, [stop], [getAngle]) and the per-pin registry behind
    [connectServo].

    Numbers.  The program is embedded twice.  The first embedding computes
    on finite numbers, as exact rationals ([Q]): the arithmetic of the
    source ([+], [-], [*], [/], comparisons) is the arithmetic of [Q], and
    equality of numbers is [Qeq] ([==]).  The second, [Ext], adds the
    special values of a double (NaN and the two infinities) and agrees with
    the first on finite numbers.  Neither rounds as binary64 does: where a
    statement depends on the positions or on the number of steps of a
    sweep it is made for whole degrees, and a counter is taken up to 2^53
    only, where doubles are exact.

    Effects.  The board is explicit state: the log of the writes and pauses
    issued so far, and the number of times Button A has been read.  Button A
    itself is an input of the program: a function giving the answer to the
    k-th read. *)

From Stdlib Require Import QArith Qround Qminmax Lqa ZArith Lia List Bool.
From stdpp Require Import base list gmap.

Local Open Scope Q_scope.

(** ** Numbers of the platform *)

(** [x < y] on numbers, as a boolean. *)
Definition Qlt_bool (x y : Q) : bool := negb (Qle_bool y x).

(** [Math.constrain(value, low, high)] of the MakeCode runtime:
    [value < low ? low : value > high ? high : value]. *)
Definition Math_constrain (value low high : Q) : Q :=
  if Qlt_bool value low then low
  else if Qlt_bool high value then high
  else value.

(** [Math.max(a, b)]. *)
Definition Math_max (a b : Q) : Q := if Qlt_bool a b then b else a.

(** [Math.round(x)]: the nearest integer, a half going up. *)
Definition Math_round (x : Q) : Q := inject_Z (Qfloor (x + (1 # 2))).

(** ** Constants for servo control *)

Definition SERVO_PERIOD_MS : Q := 20.
Definition MIN_PULSE_MS : Q := 1 # 2.
Definition MAX_PULSE_MS : Q := 5 # 2.
Definition PULSE_RANGE_MS : Q := MAX_PULSE_MS - MIN_PULSE_MS.
Definition ANGLE_RANGE : Q := 180.

(** ** The board *)

Definition AnalogPin := Z.

Inductive Event : Type :=
| AnalogSetPeriod (pin : AnalogPin) (micros : Q)   (* pins.analogSetPeriod *)
| ServoWritePin (pin : AnalogPin) (value : Q)      (* pins.servoWritePin *)
| AnalogWritePin (pin : AnalogPin) (value : Q)     (* pins.analogWritePin *)
| Pause (ms : Q).                                  (* basic.pause *)

Record Board : Type := mkBoard {
  log : list Event;     (* what was issued, oldest first *)
  polls : nat           (* how many times Button A was read *)
}.

(** The board before the program has done anything. *)
Definition Board_init : Board := {| log := []; polls := 0%nat |}.

Definition emit (e : Event) (b : Board) : Board :=
  {| log := log b ++ [e]; polls := polls b |}.

(** [input.buttonIsPressed(Button.A)]: the answer to this read, and the
    board with one more read. *)
Definition buttonIsPressed (button : nat -> bool) (b : Board) : bool * Board :=
  (button (polls b), {| log := log b; polls := S (polls b) |}).

(** ** class Servo *)

Record Servo : Type := mkServo {
  pin : AnalogPin;
  currentAngle : Q;
  isActive : bool
}.

(** [constructor(pin)] *)
Definition Servo_new (p : AnalogPin) (b : Board) : Servo * Board :=
  ({| pin := p; currentAngle := 90; isActive := false |},
   emit (AnalogSetPeriod p (SERVO_PERIOD_MS * 1000)) b).

(** [angleToPulse(angle)] *)
Definition angleToPulse (angle : Q) : Q :=
  let angle := Math_constrain angle 0 ANGLE_RANGE in
  let pulseMs := MIN_PULSE_MS + (angle / ANGLE_RANGE) * PULSE_RANGE_MS in
  Math_round (pulseMs * 1000).

(** [setAngle(angle)] *)
Definition Servo_setAngle (angle : Q) (this : Servo) (b : Board) : Servo * Board :=
  let this1 := {| pin := pin this;
                  currentAngle := Math_constrain angle 0 ANGLE_RANGE;
                  isActive := isActive this |} in
  let pulseWidth := angleToPulse (currentAngle this1) in
  let b1 := emit (ServoWritePin (pin this1) pulseWidth) b in
  ({| pin := pin this1; currentAngle := currentAngle this1; isActive := true |}, b1).

(** [stop()] *)
Definition Servo_stop (this : Servo) (b : Board) : Servo * Board :=
  let b1 := emit (AnalogWritePin (pin this) 0) b in
  ({| pin := pin this; currentAngle := currentAngle this; isActive := false |}, b1).

(** [getAngle()] *)
Definition Servo_getAngle (this : Servo) : Q := currentAngle this.

(** *** The sweep loop

    The local variables of [sweep] that the loop updates. *)
Record SweepVars : Type := mkVars {
  step : Q;
  current : Q;
  cycleCount : Q;
  forward : bool
}.

(** The state of a running sweep: the object, the board, the locals. *)
Record Loop : Type := mkLoop {
  l_this : Servo;
  l_board : Board;
  l_vars : SweepVars
}.

(** [current >= endAngle || current <= startAngle] *)
Definition at_bound (startAngle endAngle cur : Q) : bool :=
  Qle_bool endAngle cur || Qle_bool cur startAngle.

(** The [if (forward) { ... } else { ... }] of the loop body. *)
Definition sweep_advance (startAngle endAngle : Q) (v : SweepVars) : SweepVars :=
  if forward v then
    let current1 := current v + step v in
    if at_bound startAngle endAngle current1 then
      let step1 := - step v in
      {| step := step1; current := current1 + step1 * 2;
         cycleCount := cycleCount v + 1; forward := false |}
    else
      {| step := step v; current := current1;
         cycleCount := cycleCount v; forward := true |}
  else
    let current1 := current v + step v in
    if at_bound startAngle endAngle current1 then
      let step1 := - step v in
      {| step := step1; current := current1 + step1 * 2;
         cycleCount := cycleCount v; forward := true |}
    else
      {| step := step v; current := current1;
         cycleCount := cycleCount v; forward := false |}.

(** One run of the loop body; the boolean is [true] when the body leaves the
    loop by [break]. *)
Definition sweep_body (button : nat -> bool) (startAngle endAngle delayMs : Q)
    (st : Loop) : Loop * bool :=
  let (this1, b1) := Servo_setAngle (current (l_vars st)) (l_this st) (l_board st) in
  let b2 := emit (Pause delayMs) b1 in
  let v1 := sweep_advance startAngle endAngle (l_vars st) in
  let (pressed, b3) := buttonIsPressed button b2 in
  ({| l_this := this1; l_board := b3; l_vars := v1 |}, pressed).

(** [while (cycleCount < cycles) { ... }], run for at most [fuel] iterations:
    [None] when the loop has not ended by then. *)
Fixpoint sweep_loop (fuel : nat) (button : nat -> bool)
    (startAngle endAngle delayMs cycles : Q) (st : Loop) : option Loop :=
  if Qlt_bool (cycleCount (l_vars st)) cycles then
    match fuel with
    | O => None
    | S fuel' =>
        let (st1, pressed) := sweep_body button startAngle endAngle delayMs st in
        if pressed then Some st1
        else sweep_loop fuel' button startAngle endAngle delayMs cycles st1
    end
  else Some st.

(** The locals of [sweep] when the loop is entered. *)
Definition sweep_init (startAngle endAngle : Q) : SweepVars :=
  {| step := if Qlt_bool startAngle endAngle then 1 else -1;
     current := startAngle;
     cycleCount := 0;
     forward := true |}.

(** [sweep(startAngle, endAngle, speed, cycles)], with the state the loop
    ended in. *)
Definition Servo_sweep_run (fuel : nat) (button : nat -> bool)
    (startAngle endAngle speed cycles : Q) (this : Servo) (b : Board) : option Loop :=
  let startAngle := Math_constrain startAngle 0 ANGLE_RANGE in
  let endAngle := Math_constrain endAngle 0 ANGLE_RANGE in
  let speed := Math_constrain speed 1 10 in
  let cycles := Math_max 1 cycles in
  let delayMs := Math_round (100 / speed) in
  sweep_loop fuel button startAngle endAngle delayMs cycles
    {| l_this := this; l_board := b; l_vars := sweep_init startAngle endAngle |}.

(** [sweep(startAngle, endAngle, speed, cycles)] as the caller sees it. *)
Definition Servo_sweep (fuel : nat) (button : nat -> bool)
    (startAngle endAngle speed cycles : Q) (this : Servo) (b : Board)
    : option (Servo * Board) :=
  match Servo_sweep_run fuel button startAngle endAngle speed cycles this b with
  | Some st => Some (l_this st, l_board st)
  | None => None
  end.

(** ** The registry and the exported functions

    Objects live in a heap; a [Servo] value of the source is a reference
    into it.  [servos] maps a pin to the reference of its object. *)

Definition ref := nat.

Record World : Type := mkWorld {
  heap : list Servo;
  servos : gmap Z ref;
  w_board : Board
}.

Definition World_init : World :=
  {| heap := []; servos := ∅; w_board := Board_init |}.

(** [connectServo(pin)]: [servos[pin]] is either undefined or an object, and
    an object is truthy. *)
Definition connectServo (p : AnalogPin) (w : World) : ref * World :=
  match servos w !! p with
  | None =>
      let (s, b1) := Servo_new p (w_board w) in
      let r := length (heap w) in
      (r, {| heap := heap w ++ [s]; servos := <[p := r]> (servos w); w_board := b1 |})
  | Some r => (r, w)
  end.

(** The exported functions call the method of the object behind the
    reference.  A reference that is not in the heap cannot be built in the
    source; the functions leave the world as it is there. *)
Definition setAngle (servo : ref) (angle : Q) (w : World) : World :=
  match heap w !! servo with
  | Some this =>
      let (this1, b1) := Servo_setAngle angle this (w_board w) in
      {| heap := <[servo := this1]> (heap w); servos := servos w; w_board := b1 |}
  | None => w
  end.

Definition sweep (fuel : nat) (button : nat -> bool) (servo : ref)
    (startAngle endAngle speed cycles : Q) (w : World) : option World :=
  match heap w !! servo with
  | Some this =>
      match Servo_sweep fuel button startAngle endAngle speed cycles this (w_board w) with
      | Some (this1, b1) =>
          Some {| heap := <[servo := this1]> (heap w); servos := servos w; w_board := b1 |}
      | None => None
      end
  | None => Some w
  end.

Definition stop (servo : ref) (w : World) : World :=
  match heap w !! servo with
  | Some this =>
      let (this1, b1) := Servo_stop this (w_board w) in
      {| heap := <[servo := this1]> (heap w); servos := servos w; w_board := b1 |}
  | None => w
  end.

Definition getAngle (servo : ref) (w : World) : option Q :=
  match heap w !! servo with
  | Some this => Some (Servo_getAngle this)
  | None => None
  end.

(** ** Notions used in the statements *)

(** Button A is never pressed. *)
Definition never_pressed : nat -> bool := fun _ => false.

(** The locals after [n] runs of the loop body. *)
Fixpoint advance_n (startAngle endAngle : Q) (n : nat) (v : SweepVars) : SweepVars :=
  match n with
  | O => v
  | S n' => advance_n startAngle endAngle n' (sweep_advance startAngle endAngle v)
  end.

(** Among the first [n] runs of the body, how many turn [forward] into
    [to_forward]: with [false], the reversals that end a forward leg; with
    [true], the reversals that end a backward leg, that is the completed
    forward-then-back traversals. *)
Fixpoint reversals (startAngle endAngle : Q) (to_forward : bool) (n : nat)
    (v : SweepVars) : nat :=
  match n with
  | O => O
  | S n' =>
      let v1 := sweep_advance startAngle endAngle v in
      ((if eqb (forward v) (negb to_forward) && eqb (forward v1) to_forward
        then 1 else 0)
       + reversals startAngle endAngle to_forward n' v1)%nat
  end.

(** On a forward leg of a sweep between [s] and [e]. *)
Definition FwdInv (s e : Q) (v : SweepVars) : Prop :=
  forward v = true /\ step v = 1 /\ s - 1 < current v /\ current v < e + 1.

(** On a backward leg of a sweep between [s] and [e]. *)
Definition BackInv (s e : Q) (v : SweepVars) : Prop :=
  forward v = false /\ step v = -1 /\ s - 2 < current v /\ current v < e.

(** The counter stays the same during the first [k] runs of the body. *)
Definition quiet (s e : Q) (k : nat) (v : SweepVars) : Prop :=
  forall i, (i < k)%nat -> cycleCount (advance_n s e i v) == cycleCount v.

(** A state of the locals from which the sweep goes on as designed: either
    every position is at a bound, or the sweep is on one of its legs. *)
Definition Good (s e : Q) (v : SweepVars) : Prop :=
  e <= s \/ FwdInv s e v \/ BackInv s e v.

(** The test of the [while]. *)
Definition running (cycles : Q) (v : SweepVars) : bool :=
  Qlt_bool (cycleCount v) cycles.

(** Left alone, the loop runs its body exactly [k] times. *)
Definition exits_at (s e cycles : Q) (k : nat) (v : SweepVars) : Prop :=
  (forall i, (i < k)%nat -> running cycles (advance_n s e i v) = true) /\
  running cycles (advance_n s e k v) = false.

(** An angle of the servo's range. *)
Definition in_range (a : Q) : Prop := 0 <= a <= 180.

(** A world as the program can build it: the registry points into the heap,
    and to a different object for each pin. *)
Definition wf (w : World) : Prop :=
  (forall p r, servos w !! p = Some r -> (r < length (heap w))%nat) /\
  (forall p q r, servos w !! p = Some r -> servos w !! q = Some r -> p = q).

(** The number of iterations a sweep asks for: the least integer that is not
    below [Math.max(1, cycles)]. *)
Definition cycles_wanted (cycles : Q) : Z := Qceiling (Math_max 1 cycles).

(** The values written by [pins.servoWritePin], oldest first. *)
Fixpoint servo_writes (l : list Event) : list Q :=
  match l with
  | [] => []
  | ServoWritePin _ v :: l' => v :: servo_writes l'
  | _ :: l' => servo_writes l'
  end.

(** The calls a program can make on one controller. *)
Inductive Call : Type :=
| CallSetAngle (angle : Q)
| CallSweep (startAngle endAngle speed cycles : Q)
| CallStop
| CallGetAngle.

Definition run_call (fuel : nat) (button : nat -> bool) (c : Call)
    (this : Servo) (b : Board) : option (Servo * Board) :=
  match c with
  | CallSetAngle a => Some (Servo_setAngle a this b)
  | CallSweep s e sp cy => Servo_sweep fuel button s e sp cy this b
  | CallStop => Some (Servo_stop this b)
  | CallGetAngle => Some (this, b)
  end.

Fixpoint run_calls (fuel : nat) (button : nat -> bool) (cs : list Call)
    (this : Servo) (b : Board) : option (Servo * Board) :=
  match cs with
  | [] => Some (this, b)
  | c :: cs' =>
      match run_call fuel button c this b with
      | Some (this1, b1) => run_calls fuel button cs' this1 b1
      | None => None
      end
  end.

(** ** Notions used for the further properties *)

(** [delayMs] of [sweep]: [Math.round(100 / speed)] at the clamped speed. *)
Definition sweep_delay (speed : Q) : Q :=
  Math_round (100 / Math_constrain speed 1 10).

(** What [n] runs of the loop body issue on pin [p], from the locals [v]:
    the pulse of the clamped position, then the pause. *)
Fixpoint sweep_events (p : AnalogPin) (d s e : Q) (n : nat) (v : SweepVars)
    : list Event :=
  match n with
  | O => []
  | S n' =>
      ServoWritePin p (angleToPulse (Math_constrain (current v) 0 ANGLE_RANGE))
      :: Pause d
      :: sweep_events p d s e n' (sweep_advance s e v)
  end.

(** The positions of a sweep with [s < e]: below [e] on a forward leg, below
    [e - 1] on a backward leg, and never 2 or more below [s]. *)
Definition Tight (s e : Q) (v : SweepVars) : Prop :=
  (forward v = true /\ step v = 1 /\ s - 1 < current v /\ current v < e)
  \/ (forward v = false /\ step v = -1 /\ s - 2 < current v /\ current v < e - 1).

(** The positions of a sweep with [s + 2 <= e]: from [s] on. *)
Definition Inside (s e : Q) (v : SweepVars) : Prop :=
  (forward v = true /\ step v = 1 /\ s <= current v /\ current v < e)
  \/ (forward v = false /\ step v = -1 /\ s <= current v /\ current v < e - 1).

(** The positions of a sweep with [e <= s]: [s] before a forward step,
    [s + 1] before a backward step. *)
Definition Stuck (s : Q) (v : SweepVars) : Prop :=
  (forward v = true /\ step v = -1 /\ current v == s)
  \/ (forward v = false /\ step v = 1 /\ current v == s + 1).

(** How many times the period of pin [p] was configured. *)
Fixpoint period_configs (p : AnalogPin) (l : list Event) : nat :=
  match l with
  | [] => O
  | AnalogSetPeriod q _ :: l' =>
      ((if Z.eqb p q then 1 else 0) + period_configs p l')%nat
  | _ :: l' => period_configs p l'
  end.

(** The calls a program can make on the exported functions. *)
Inductive WCall : Type :=
| WConnect (p : AnalogPin)
| WSetAngle (servo : ref) (angle : Q)
| WSweep (servo : ref) (startAngle endAngle speed cycles : Q)
| WStop (servo : ref)
| WGetAngle (servo : ref).

Definition run_wcall (fuel : nat) (button : nat -> bool) (c : WCall)
    (w : World) : option World :=
  match c with
  | WConnect p => Some (snd (connectServo p w))
  | WSetAngle r a => Some (setAngle r a w)
  | WSweep r s e sp cy => sweep fuel button r s e sp cy w
  | WStop r => Some (stop r w)
  | WGetAngle r => Some w
  end.

Fixpoint run_world (fuel : nat) (button : nat -> bool) (cs : list WCall)
    (w : World) : option World :=
  match cs with
  | [] => Some w
  | c :: cs' =>
      match run_wcall fuel button c w with
      | Some w1 => run_world fuel button cs' w1
      | None => None
      end
  end.

(** The registry and the heap agree: one object per registered pin, each
    object filed under its own pin with its angle in range, and the period
    of a pin configured once, when it is registered. *)
Definition consistent (w : World) : Prop :=
  wf w /\
  length (heap w) = size (servos w) /\
  (forall r sv, heap w !! r = Some sv ->
     servos w !! pin sv = Some r /\ in_range (currentAngle sv)) /\
  (forall p, period_configs p (log (w_board w))
             = match servos w !! p with Some _ => 1%nat | None => 0%nat end).

(** ** The program on all numbers

    The definitions above compute on finite numbers.  A [number] of the
    source can also be NaN or an infinity: [Ext] is the class [Servo] on
    numbers with these special values.  Finite numbers keep their exact
    arithmetic; the special values follow IEEE 754 (a comparison with NaN is
    false, NaN spreads through arithmetic).  The sign of zero is not
    modelled.  On finite numbers [Ext] and the definitions above agree, see
    [sweep_loop_up] below. *)

Module Ext.

Inductive number : Type :=
| Fin (q : Q)
| NaN
| PInf
| NInf.

(** [x < y] *)
Definition lt (x y : number) : bool :=
  match x, y with
  | Fin a, Fin b => Qlt_bool a b
  | Fin _, PInf => true
  | NInf, Fin _ => true
  | NInf, PInf => true
  | _, _ => false
  end.

(** [x <= y] *)
Definition le (x y : number) : bool :=
  match x, y with
  | Fin a, Fin b => Qle_bool a b
  | Fin _, PInf => true
  | NInf, Fin _ => true
  | NInf, PInf => true
  | PInf, PInf => true
  | NInf, NInf => true
  | _, _ => false
  end.

(** [x > y] and [x >= y] *)
Definition gt (x y : number) : bool := lt y x.
Definition ge (x y : number) : bool := le y x.

(** [-x] *)
Definition opp (x : number) : number :=
  match x with
  | Fin a => Fin (- a)
  | NaN => NaN
  | PInf => NInf
  | NInf => PInf
  end.

(** [x + y] *)
Definition add (x y : number) : number :=
  match x, y with
  | Fin a, Fin b => Fin (a + b)
  | NaN, _ => NaN
  | _, NaN => NaN
  | PInf, NInf => NaN
  | NInf, PInf => NaN
  | PInf, _ => PInf
  | _, PInf => PInf
  | NInf, _ => NInf
  | _, NInf => NInf
  end.

(** [x - y] *)
Definition sub (x y : number) : number := add x (opp y).

(** An infinity times the finite [a]. *)
Definition scale (a : Q) (inf : number) : number :=
  match a ?= 0 with
  | Gt => inf
  | Lt => opp inf
  | Eq => NaN
  end.

(** [x * y] *)
Definition mul (x y : number) : number :=
  match x, y with
  | Fin a, Fin b => Fin (a * b)
  | NaN, _ => NaN
  | _, NaN => NaN
  | Fin a, inf => scale a inf
  | inf, Fin a => scale a inf
  | PInf, PInf => PInf
  | NInf, NInf => PInf
  | PInf, NInf => NInf
  | NInf, PInf => NInf
  end.

(** [x / y] *)
Definition div (x y : number) : number :=
  match x, y with
  | NaN, _ => NaN
  | _, NaN => NaN
  | Fin a, Fin b =>
      match b ?= 0 with
      | Eq => scale a PInf
      | _ => Fin (a / b)
      end
  | Fin _, _ => Fin 0
  | inf, Fin b =>
      match b ?= 0 with
      | Lt => opp inf
      | _ => inf
      end
  | _, _ => NaN
  end.

(** [Math.constrain(value, low, high)]:
    [value < low ? low : value > high ? high : value]. *)
Definition Math_constrain (value low high : number) : number :=
  if lt value low then low
  else if gt value high then high
  else value.

(** [Math.max(a, b)]: [a] when [a >= b], else [b]. *)
Definition Math_max (a b : number) : number := if ge a b then a else b.

(** [Math.round(x)] *)
Definition Math_round (x : number) : number :=
  match x with
  | Fin q => Fin (inject_Z (Qfloor (q + (1 # 2))))
  | _ => x
  end.

Definition SERVO_PERIOD_MS : number := Fin 20.
Definition MIN_PULSE_MS : number := Fin (1 # 2).
Definition MAX_PULSE_MS : number := Fin (5 # 2).
Definition PULSE_RANGE_MS : number := sub MAX_PULSE_MS MIN_PULSE_MS.
Definition ANGLE_RANGE : number := Fin 180.

Inductive Event : Type :=
| AnalogSetPeriod (pin : AnalogPin) (micros : number)
| ServoWritePin (pin : AnalogPin) (value : number)
| AnalogWritePin (pin : AnalogPin) (value : number)
| Pause (ms : number).

Record Board : Type := mkBoard {
  log : list Event;
  polls : nat
}.

Definition Board_init : Board := {| log := []; polls := 0%nat |}.

Definition emit (e : Event) (b : Board) : Board :=
  {| log := log b ++ [e]; polls := polls b |}.

Definition buttonIsPressed (button : nat -> bool) (b : Board) : bool * Board :=
  (button (polls b), {| log := log b; polls := S (polls b) |}).

Record Servo : Type := mkServo {
  pin : AnalogPin;
  currentAngle : number;
  isActive : bool
}.

(** [constructor(pin)] *)
Definition Servo_new (p : AnalogPin) (b : Board) : Servo * Board :=
  ({| pin := p; currentAngle := Fin 90; isActive := false |},
   emit (AnalogSetPeriod p (mul SERVO_PERIOD_MS (Fin 1000))) b).

(** [angleToPulse(angle)] *)
Definition angleToPulse (angle : number) : number :=
  let angle := Math_constrain angle (Fin 0) ANGLE_RANGE in
  let pulseMs := add MIN_PULSE_MS (mul (div angle ANGLE_RANGE) PULSE_RANGE_MS) in
  Math_round (mul pulseMs (Fin 1000)).

(** [setAngle(angle)] *)
Definition Servo_setAngle (angle : number) (this : Servo) (b : Board)
    : Servo * Board :=
  let this1 := {| pin := pin this;
                  currentAngle := Math_constrain angle (Fin 0) ANGLE_RANGE;
                  isActive := isActive this |} in
  let pulseWidth := angleToPulse (currentAngle this1) in
  let b1 := emit (ServoWritePin (pin this1) pulseWidth) b in
  ({| pin := pin this1; currentAngle := currentAngle this1; isActive := true |}, b1).

(** [stop()] *)
Definition Servo_stop (this : Servo) (b : Board) : Servo * Board :=
  let b1 := emit (AnalogWritePin (pin this) (Fin 0)) b in
  ({| pin := pin this; currentAngle := currentAngle this; isActive := false |}, b1).

(** [getAngle()] *)
Definition Servo_getAngle (this : Servo) : number := currentAngle this.

Record SweepVars : Type := mkVars {
  step : number;
  current : number;
  cycleCount : number;
  forward : bool
}.

Record Loop : Type := mkLoop {
  l_this : Servo;
  l_board : Board;
  l_vars : SweepVars
}.

(** [current >= endAngle || current <= startAngle] *)
Definition at_bound (startAngle endAngle cur : number) : bool :=
  ge cur endAngle || le cur startAngle.

Definition sweep_advance (startAngle endAngle : number) (v : SweepVars)
    : SweepVars :=
  if forward v then
    let current1 := add (current v) (step v) in
    if at_bound startAngle endAngle current1 then
      let step1 := opp (step v) in
      {| step := step1; current := add current1 (mul step1 (Fin 2));
         cycleCount := add (cycleCount v) (Fin 1); forward := false |}
    else
      {| step := step v; current := current1;
         cycleCount := cycleCount v; forward := true |}
  else
    let current1 := add (current v) (step v) in
    if at_bound startAngle endAngle current1 then
      let step1 := opp (step v) in
      {| step := step1; current := add current1 (mul step1 (Fin 2));
         cycleCount := cycleCount v; forward := true |}
    else
      {| step := step v; current := current1;
         cycleCount := cycleCount v; forward := false |}.

Definition sweep_body (button : nat -> bool) (startAngle endAngle delayMs : number)
    (st : Loop) : Loop * bool :=
  let (this1, b1) := Servo_setAngle (current (l_vars st)) (l_this st) (l_board st) in
  let b2 := emit (Pause delayMs) b1 in
  let v1 := sweep_advance startAngle endAngle (l_vars st) in
  let (pressed, b3) := buttonIsPressed button b2 in
  ({| l_this := this1; l_board := b3; l_vars := v1 |}, pressed).

(** [while (cycleCount < cycles) { ... }] for at most [fuel] iterations. *)
Fixpoint sweep_loop (fuel : nat) (button : nat -> bool)
    (startAngle endAngle delayMs cycles : number) (st : Loop) : option Loop :=
  if lt (cycleCount (l_vars st)) cycles then
    match fuel with
    | O => None
    | S fuel' =>
        let (st1, pressed) := sweep_body button startAngle endAngle delayMs st in
        if pressed then Some st1
        else sweep_loop fuel' button startAngle endAngle delayMs cycles st1
    end
  else Some st.

Definition sweep_init (startAngle endAngle : number) : SweepVars :=
  {| step := if lt startAngle endAngle then Fin 1 else Fin (-1);
     current := startAngle;
     cycleCount := Fin 0;
     forward := true |}.

(** [sweep(startAngle, endAngle, speed, cycles)] *)
Definition Servo_sweep_run (fuel : nat) (button : nat -> bool)
    (startAngle endAngle speed cycles : number) (this : Servo) (b : Board)
    : option Loop :=
  let startAngle := Math_constrain startAngle (Fin 0) ANGLE_RANGE in
  let endAngle := Math_constrain endAngle (Fin 0) ANGLE_RANGE in
  let speed := Math_constrain speed (Fin 1) (Fin 10) in
  let cycles := Math_max (Fin 1) cycles in
  let delayMs := Math_round (div (Fin 100) speed) in
  sweep_loop fuel button startAngle endAngle delayMs cycles
    {| l_this := this; l_board := b; l_vars := sweep_init startAngle endAngle |}.

Definition Servo_sweep (fuel : nat) (button : nat -> bool)
    (startAngle endAngle speed cycles : number) (this : Servo) (b : Board)
    : option (Servo * Board) :=
  match Servo_sweep_run fuel button startAngle endAngle speed cycles this b with
  | Some st => Some (l_this st, l_board st)
  | None => None
  end.

(** The calls a program can make on one controller. *)
Inductive Call : Type :=
| CallSetAngle (angle : number)
| CallSweep (startAngle endAngle speed cycles : number)
| CallStop
| CallGetAngle.

Definition run_call (fuel : nat) (button : nat -> bool) (c : Call)
    (this : Servo) (b : Board) : option (Servo * Board) :=
  match c with
  | CallSetAngle a => Some (Servo_setAngle a this b)
  | CallSweep s e sp cy => Servo_sweep fuel button s e sp cy this b
  | CallStop => Some (Servo_stop this b)
  | CallGetAngle => Some (this, b)
  end.

Fixpoint run_calls (fuel : nat) (button : nat -> bool) (cs : list Call)
    (this : Servo) (b : Board) : option (Servo * Board) :=
  match cs with
  | [] => Some (this, b)
  | c :: cs' =>
      match run_call fuel button c this b with
      | Some (this1, b1) => run_calls fuel button cs' this1 b1
      | None => None
      end
  end.

(** [0 <= x <= 180] *)
Definition in_range (x : number) : bool := le (Fin 0) x && le x (Fin 180).

(** The values written by [pins.servoWritePin], oldest first. *)
Fixpoint servo_writes (l : list Event) : list number :=
  match l with
  | [] => []
  | ServoWritePin _ v :: l' => v :: servo_writes l'
  | _ :: l' => servo_writes l'
  end.

End Ext.

(** *** Finite states as states on all numbers *)

Definition up_event (e : Event) : Ext.Event :=
  match e with
  | AnalogSetPeriod p us => Ext.AnalogSetPeriod p (Ext.Fin us)
  | ServoWritePin p v => Ext.ServoWritePin p (Ext.Fin v)
  | AnalogWritePin p v => Ext.AnalogWritePin p (Ext.Fin v)
  | Pause ms => Ext.Pause (Ext.Fin ms)
  end.

Definition up_board (b : Board) : Ext.Board :=
  {| Ext.log := map up_event (log b); Ext.polls := polls b |}.

Definition up_servo (sv : Servo) : Ext.Servo :=
  {| Ext.pin := pin sv; Ext.currentAngle := Ext.Fin (currentAngle sv);
     Ext.isActive := isActive sv |}.

Definition up_vars (v : SweepVars) : Ext.SweepVars :=
  {| Ext.step := Ext.Fin (step v); Ext.current := Ext.Fin (current v);
     Ext.cycleCount := Ext.Fin (cycleCount v); Ext.forward := forward v |}.

Definition up_loop (st : Loop) : Ext.Loop :=
  {| Ext.l_this := up_servo (l_this st); Ext.l_board := up_board (l_board st);
     Ext.l_vars := up_vars (l_vars st) |}.

Definition up_call (c : Call) : Ext.Call :=
  match c with
  | CallSetAngle a => Ext.CallSetAngle (Ext.Fin a)
  | CallSweep s e sp cy =>
      Ext.CallSweep (Ext.Fin s) (Ext.Fin e) (Ext.Fin sp) (Ext.Fin cy)
  | CallStop => Ext.CallStop
  | CallGetAngle => Ext.CallGetAngle
  end.

Definition up_result (r : Servo * Board) : Ext.Servo * Ext.Board :=
  (up_servo (fst r), up_board (snd r)).

(** The largest count a double holds exactly: [cycleCount++] is exact below
    it, and the counter of the source stays at it for ever. *)
Definition MAX_COUNT : Q := 9007199254740992.

(** The cycles of every sweep among the calls are at most [MAX_COUNT]. *)
Definition countable_call (c : Call) : Prop :=
  match c with
  | CallSweep _ _ _ cy => cy <= MAX_COUNT
  | _ => True
  end.

(** ** Facts on the numbers *)

Lemma Qlt_bool_iff (x y : Q) : Qlt_bool x y = true <-> x < y.
Proof.
  unfold Qlt_bool. rewrite negb_true_iff. split.
  - intros H. apply Qnot_le_lt. intros Hle.
    apply Qle_bool_iff in Hle. congruence.
  - intros H. destruct (Qle_bool y x) eqn:E; [|reflexivity].
    apply Qle_bool_iff in E. lra.
Qed.

Lemma Qlt_bool_false (x y : Q) : Qlt_bool x y = false <-> y <= x.
Proof.
  unfold Qlt_bool. rewrite negb_false_iff. apply Qle_bool_iff.
Qed.

Ltac case_lt :=
  match goal with
  | |- context [Qlt_bool ?x ?y] =>
      let E := fresh "E" in
      destruct (Qlt_bool x y) eqn:E;
      [apply Qlt_bool_iff in E | apply Qlt_bool_false in E]
  | H : context [Qlt_bool ?x ?y] |- _ =>
      let E := fresh "E" in
      destruct (Qlt_bool x y) eqn:E;
      [apply Qlt_bool_iff in E | apply Qlt_bool_false in E]
  end.

Lemma Math_constrain_range (v lo hi : Q) :
  lo <= hi -> lo <= Math_constrain v lo hi <= hi.
Proof. intros H. unfold Math_constrain. repeat case_lt; lra. Qed.

Lemma Math_constrain_inside (v lo hi : Q) :
  lo <= v <= hi -> Math_constrain v lo hi = v.
Proof. intros H. unfold Math_constrain. repeat case_lt; try lra; reflexivity. Qed.

Lemma Math_constrain_below (v lo hi : Q) : v < lo -> Math_constrain v lo hi = lo.
Proof. intros H. unfold Math_constrain. repeat case_lt; try lra; reflexivity. Qed.

Lemma Math_constrain_above (v lo hi : Q) :
  lo <= hi -> hi < v -> Math_constrain v lo hi = hi.
Proof. intros H1 H2. unfold Math_constrain. repeat case_lt; try lra; reflexivity. Qed.

Lemma Math_constrain_idem (v lo hi : Q) :
  lo <= hi -> Math_constrain (Math_constrain v lo hi) lo hi = Math_constrain v lo hi.
Proof.
  intros H. apply Math_constrain_inside. now apply Math_constrain_range.
Qed.

Lemma Math_constrain_mono (v w lo hi : Q) :
  lo <= hi -> v <= w -> Math_constrain v lo hi <= Math_constrain w lo hi.
Proof. intros H1 H2. unfold Math_constrain. repeat case_lt; lra. Qed.

Lemma Math_round_mono (x y : Q) : x <= y -> Math_round x <= Math_round y.
Proof.
  intros H. unfold Math_round. rewrite <- Zle_Qle.
  apply Qfloor_resp_le. lra.
Qed.

Lemma Math_round_nearest (x : Q) :
  x - (1 # 2) < Math_round x <= x + (1 # 2).
Proof.
  unfold Math_round. split.
  - pose proof (Qlt_floor (x + (1 # 2))) as H.
    rewrite inject_Z_plus in H. change (inject_Z 1) with 1 in H. lra.
  - apply Qfloor_le.
Qed.

(** The pulse before rounding is the linear map of the spec. *)
Lemma pulse_linear (a : Q) :
  (MIN_PULSE_MS + (a / ANGLE_RANGE) * PULSE_RANGE_MS) * 1000
  == ((1 # 2) + (a / 180) * 2) * 1000.
Proof.
  unfold PULSE_RANGE_MS, MAX_PULSE_MS, MIN_PULSE_MS, ANGLE_RANGE, Qdiv.
  change (/ 180) with (1 # 180). lra.
Qed.

Lemma angleToPulse_mono (a b : Q) : a <= b -> angleToPulse a <= angleToPulse b.
Proof.
  intros H. unfold angleToPulse. apply Math_round_mono.
  pose proof (Math_constrain_mono a b 0 ANGLE_RANGE) as M.
  assert (R : 0 <= ANGLE_RANGE) by (unfold ANGLE_RANGE; lra).
  specialize (M R H).
  rewrite !pulse_linear.
  set (x := Math_constrain a 0 ANGLE_RANGE) in *.
  set (y := Math_constrain b 0 ANGLE_RANGE) in *.
  unfold Qdiv. change (/ 180) with (1 # 180). lra.
Qed.

(** ** One step of the sweep *)

Lemma at_bound_iff (s e c : Q) : at_bound s e c = true <-> e <= c \/ c <= s.
Proof.
  unfold at_bound. rewrite orb_true_iff, !Qle_bool_iff. tauto.
Qed.

Lemma at_bound_false (s e c : Q) : at_bound s e c = false <-> c < e /\ s < c.
Proof.
  split.
  - intros H. split; apply Qnot_le_lt; intros L;
      (assert (T : at_bound s e c = true) by (apply at_bound_iff; tauto));
      congruence.
  - intros [H1 H2]. destruct (at_bound s e c) eqn:E; [|reflexivity].
    apply at_bound_iff in E. destruct E; lra.
Qed.

(** With [endAngle <= startAngle] every position is at a bound. *)
Lemma at_bound_always (s e c : Q) : e <= s -> at_bound s e c = true.
Proof.
  intros H. apply at_bound_iff.
  destruct (Qlt_le_dec c e); [right; lra | left; assumption].
Qed.

(** What one run of the body does to [forward] and [cycleCount]: the counter
    goes up by one exactly when a forward leg ends. *)
Lemma sweep_advance_cases (s e : Q) (v : SweepVars) :
  let v1 := sweep_advance s e v in
  (forward v = true /\ forward v1 = false /\ cycleCount v1 == cycleCount v + 1)
  \/ (forward v = false /\ forward v1 = true /\ cycleCount v1 == cycleCount v)
  \/ (forward v1 = forward v /\ cycleCount v1 == cycleCount v).
Proof.
  unfold sweep_advance.
  destruct (forward v) eqn:F;
    destruct (at_bound s e (current v + step v)); cbn [forward cycleCount].
  - left. repeat split; reflexivity.
  - right; right. split; reflexivity.
  - right; left. repeat split; reflexivity.
  - right; right. split; reflexivity.
Qed.

Lemma advance_n_add (s e : Q) (n m : nat) (v : SweepVars) :
  advance_n s e (n + m) v = advance_n s e m (advance_n s e n v).
Proof.
  revert v. induction n as [|n IH]; intros v; [reflexivity|].
  cbn [Nat.add advance_n]. apply IH.
Qed.

Lemma advance_n_S (s e : Q) (n : nat) (v : SweepVars) :
  advance_n s e (S n) v = sweep_advance s e (advance_n s e n v).
Proof.
  replace (S n) with (n + 1)%nat by lia. rewrite advance_n_add. reflexivity.
Qed.

(** ** The legs of a sweep with [startAngle < endAngle] *)

Section Legs.
Variables s e : Q.

Lemma quiet_step (k : nat) (v : SweepVars) :
  cycleCount (sweep_advance s e v) == cycleCount v ->
  quiet s e k (sweep_advance s e v) -> quiet s e (S k) v.
Proof.
  intros H Q i Hi. destruct i as [|i]; [reflexivity|].
  cbn [advance_n].
  transitivity (cycleCount (sweep_advance s e v)); [apply Q; lia | exact H].
Qed.

Lemma quiet_add (k1 k2 : nat) (v : SweepVars) :
  quiet s e k1 v -> cycleCount (advance_n s e k1 v) == cycleCount v ->
  quiet s e k2 (advance_n s e k1 v) -> quiet s e (k1 + k2) v.
Proof.
  intros Q1 H Q2 i Hi. destruct (Nat.lt_ge_cases i k1) as [L|L].
  - apply Q1; exact L.
  - replace i with (k1 + (i - k1))%nat by lia. rewrite advance_n_add.
    transitivity (cycleCount (advance_n s e k1 v)); [apply Q2; lia | exact H].
Qed.

Lemma fwd_no_fire (v : SweepVars) :
  FwdInv s e v -> current v + 1 < e ->
  sweep_advance s e v =
  {| step := 1; current := current v + 1; cycleCount := cycleCount v; forward := true |}.
Proof.
  intros (F & St & Lo & Hi) H. unfold sweep_advance. rewrite F, St.
  assert (B : at_bound s e (current v + 1) = false)
    by (apply at_bound_false; split; lra).
  rewrite B. reflexivity.
Qed.

Lemma fwd_fire (v : SweepVars) :
  FwdInv s e v -> e <= current v + 1 ->
  sweep_advance s e v =
  {| step := -1; current := current v + 1 + -1 * 2;
     cycleCount := cycleCount v + 1; forward := false |}.
Proof.
  intros (F & St & Lo & Hi) H. unfold sweep_advance. rewrite F, St.
  assert (B : at_bound s e (current v + 1) = true)
    by (apply at_bound_iff; left; exact H).
  rewrite B. reflexivity.
Qed.

Lemma back_no_fire (v : SweepVars) :
  BackInv s e v -> s < current v + -1 ->
  sweep_advance s e v =
  {| step := -1; current := current v + -1; cycleCount := cycleCount v; forward := false |}.
Proof.
  intros (F & St & Lo & Hi) H. unfold sweep_advance. rewrite F, St.
  assert (B : at_bound s e (current v + -1) = false)
    by (apply at_bound_false; split; lra).
  rewrite B. reflexivity.
Qed.

Lemma back_fire (v : SweepVars) :
  BackInv s e v -> current v + -1 <= s ->
  sweep_advance s e v =
  {| step := 1; current := current v + -1 + 1 * 2;
     cycleCount := cycleCount v; forward := true |}.
Proof.
  intros (F & St & Lo & Hi) H. unfold sweep_advance. rewrite F, St.
  assert (B : at_bound s e (current v + -1) = true)
    by (apply at_bound_iff; right; exact H).
  rewrite B. reflexivity.
Qed.

(** A forward leg ends, and the counter goes up by one when it does. *)
Lemma fwd_leg (m : nat) (v : SweepVars) :
  FwdInv s e v -> e - current v <= inject_Z (Z.of_nat m) + 1 ->
  exists k, (1 <= k <= m + 1)%nat /\ quiet s e k v /\
    cycleCount (advance_n s e k v) == cycleCount v + 1 /\
    BackInv s e (advance_n s e k v).
Proof.
  revert v. induction m as [|m IH]; intros v Inv D.
  - exists 1%nat. change (inject_Z (Z.of_nat 0)) with 0 in D.
    cbn [advance_n]. rewrite (fwd_fire v Inv) by lra.
    destruct Inv as (F & St & Lo & Hi).
    split; [lia|]. split.
    + intros i Hi'. replace i with 0%nat by lia. reflexivity.
    + cbn [cycleCount]. split; [reflexivity|].
      unfold BackInv; cbn [forward step current]. repeat split; lra.
  - destruct (Qlt_le_dec (current v + 1) e) as [L|L].
    + pose proof (fwd_no_fire v Inv L) as A.
      destruct Inv as (F & St & Lo & Hi).
      destruct (IH (sweep_advance s e v)) as (k & Hk & Q & C & B).
      * rewrite A. unfold FwdInv; cbn [forward step current].
        repeat split; lra.
      * rewrite A; cbn [current].
        rewrite Nat2Z.inj_succ, <- Z.add_1_r, inject_Z_plus in D.
        change (inject_Z 1) with 1 in D. lra.
      * exists (S k). split; [lia|]. split.
        -- apply quiet_step; [rewrite A; reflexivity | exact Q].
        -- cbn [advance_n]. split; [|exact B].
           rewrite C, A. reflexivity.
    + exists 1%nat. cbn [advance_n]. rewrite (fwd_fire v Inv L).
      destruct Inv as (F & St & Lo & Hi).
      split; [lia|]. split.
      * intros i Hi'. replace i with 0%nat by lia. reflexivity.
      * cbn [cycleCount]. split; [reflexivity|].
        unfold BackInv; cbn [forward step current]. repeat split; lra.
Qed.

(** A backward leg ends, and leaves the counter as it is. *)
Lemma back_leg (m : nat) (v : SweepVars) :
  BackInv s e v -> current v - s <= inject_Z (Z.of_nat m) + 1 ->
  exists k, (1 <= k <= m + 1)%nat /\ quiet s e k v /\
    cycleCount (advance_n s e k v) == cycleCount v /\
    FwdInv s e (advance_n s e k v).
Proof.
  revert v. induction m as [|m IH]; intros v Inv D.
  - exists 1%nat. change (inject_Z (Z.of_nat 0)) with 0 in D.
    cbn [advance_n]. rewrite (back_fire v Inv) by lra.
    destruct Inv as (F & St & Lo & Hi).
    split; [lia|]. split.
    + intros i Hi'. replace i with 0%nat by lia. reflexivity.
    + cbn [cycleCount]. split; [reflexivity|].
      unfold FwdInv; cbn [forward step current]. repeat split; lra.
  - destruct (Qlt_le_dec s (current v + -1)) as [L|L].
    + pose proof (back_no_fire v Inv L) as A.
      destruct Inv as (F & St & Lo & Hi).
      destruct (IH (sweep_advance s e v)) as (k & Hk & Q & C & B).
      * rewrite A. unfold BackInv; cbn [forward step current].
        repeat split; lra.
      * rewrite A; cbn [current].
        rewrite Nat2Z.inj_succ, <- Z.add_1_r, inject_Z_plus in D.
        change (inject_Z 1) with 1 in D. lra.
      * exists (S k). split; [lia|]. split.
        -- apply quiet_step; [rewrite A; reflexivity | exact Q].
        -- cbn [advance_n]. split; [|exact B].
           rewrite C, A. reflexivity.
    + exists 1%nat. cbn [advance_n]. rewrite (back_fire v Inv L).
      destruct Inv as (F & St & Lo & Hi).
      split; [lia|]. split.
      * intros i Hi'. replace i with 0%nat by lia. reflexivity.
      * cbn [cycleCount]. split; [reflexivity|].
        unfold FwdInv; cbn [forward step current]. repeat split; lra.
Qed.
End Legs.

(** ** The loop left alone ends *)

Section Progress.
Variables s e : Q.
Hypothesis s_range : in_range s.
Hypothesis e_range : in_range e.

Lemma always_fwd (v : SweepVars) :
  e <= s -> forward v = true ->
  forward (sweep_advance s e v) = false /\
  cycleCount (sweep_advance s e v) == cycleCount v + 1.
Proof.
  intros D F. unfold sweep_advance.
  rewrite F, (at_bound_always s e _ D). split; reflexivity.
Qed.

Lemma always_back (v : SweepVars) :
  e <= s -> forward v = false ->
  forward (sweep_advance s e v) = true /\
  cycleCount (sweep_advance s e v) == cycleCount v.
Proof.
  intros D F. unfold sweep_advance.
  rewrite F, (at_bound_always s e _ D). split; reflexivity.
Qed.

(** From a good state the counter goes up by one within 361 runs of the
    body, at the end of a forward leg. *)
Lemma progress (v : SweepVars) :
  Good s e v ->
  exists k, (1 <= k <= 361)%nat /\ quiet s e k v /\
    cycleCount (advance_n s e k v) == cycleCount v + 1 /\
    forward (advance_n s e k v) = false /\
    Good s e (advance_n s e k v).
Proof.
  destruct s_range as [s0 s180], e_range as [e0 e180].
  intros [D | [I | I]].
  - destruct (forward v) eqn:F.
    + exists 1%nat. destruct (always_fwd v D F) as [F1 C1].
      split; [lia|]. split; [|cbn [advance_n]; repeat split; auto; now left].
      intros i Hi. replace i with 0%nat by lia. reflexivity.
    + exists 2%nat. destruct (always_back v D F) as [F1 C1].
      destruct (always_fwd _ D F1) as [F2 C2].
      split; [lia|]. split; [|cbn [advance_n]; repeat split; auto].
      * intros i Hi. destruct i as [|[|i]]; [reflexivity | exact C1 | lia].
      * rewrite C2, C1. reflexivity.
      * now left.
  - destruct (fwd_leg s e 180 v I) as (k & Hk & Q & C & B).
    + destruct I as (_ & _ & Lo & _).
      replace (inject_Z (Z.of_nat 180)) with 180 by reflexivity. lra.
    + exists k. split; [lia|]. repeat split; auto.
      * apply B.
      * right; right; exact B.
  - destruct (back_leg s e 179 v I) as (k1 & Hk1 & Q1 & C1 & B1).
    + destruct I as (_ & _ & _ & Hi).
      replace (inject_Z (Z.of_nat 179)) with 179 by reflexivity. lra.
    + destruct (fwd_leg s e 180 _ B1) as (k2 & Hk2 & Q2 & C2 & B2).
      * destruct B1 as (_ & _ & Lo & _).
        replace (inject_Z (Z.of_nat 180)) with 180 by reflexivity. lra.
      * exists (k1 + k2)%nat. split; [lia|]. split.
        -- apply quiet_add; assumption.
        -- rewrite advance_n_add. split; [rewrite C2, C1; reflexivity|].
           split; [apply B2 | right; right; exact B2].
Qed.

Variable cycles : Q.

Lemma running_eq (v w : SweepVars) :
  cycleCount v == cycleCount w -> running cycles v = running cycles w.
Proof.
  intros H. unfold running.
  destruct (Qlt_bool (cycleCount w) cycles) eqn:E.
  - apply Qlt_bool_iff. apply Qlt_bool_iff in E. lra.
  - apply Qlt_bool_false. apply Qlt_bool_false in E. lra.
Qed.

(** The loop left alone ends: the counter reaches the least integer not
    below [cycles]. *)
Lemma exit_exists (n : nat) (v : SweepVars) (c : Z) :
  Good s e v -> cycleCount v == inject_Z c ->
  (Qceiling cycles - c <= Z.of_nat n)%Z ->
  exists k, (k <= 361 * n)%nat /\ exits_at s e cycles k v /\
    cycleCount (advance_n s e k v) == inject_Z (Z.max c (Qceiling cycles)) /\
    ((0 < k)%nat -> forward (advance_n s e k v) = false) /\
    Good s e (advance_n s e k v).
Proof.
  revert v c. induction n as [|n IH]; intros v c G C N.
  - exists 0%nat. split; [lia|]. cbn [advance_n].
    assert (R : running cycles v = false).
    { unfold running. apply Qlt_bool_false.
      pose proof (Qle_ceiling cycles) as U.
      assert (inject_Z (Qceiling cycles) <= inject_Z c)
        by (rewrite <- Zle_Qle; lia).
      lra. }
    split; [split; [intros i Hi; lia | exact R]|].
    split; [rewrite C; rewrite Z.max_l by lia; reflexivity|].
    split; [lia | exact G].
  - destruct (running cycles v) eqn:R.
    + assert (Lt : (c < Qceiling cycles)%Z).
      { unfold running in R. apply Qlt_bool_iff in R.
        pose proof (Qle_ceiling cycles) as U.
        rewrite Zlt_Qlt. lra. }
      destruct (progress v G) as (k1 & Hk1 & Q1 & C1 & F1 & G1).
      destruct (IH (advance_n s e k1 v) (c + 1)%Z G1) as (k2 & Hk2 & [E1 E2] & C2 & F2 & G2).
      * rewrite C1, C, inject_Z_plus. reflexivity.
      * lia.
      * exists (k1 + k2)%nat. split; [lia|].
        unfold exits_at. rewrite !advance_n_add.
        split; [split|].
        -- intros i Hi. destruct (Nat.lt_ge_cases i k1) as [L|L].
           ++ rewrite (running_eq _ v); [exact R | apply Q1; exact L].
           ++ replace i with (k1 + (i - k1))%nat by lia.
              rewrite advance_n_add. apply E1. lia.
        -- exact E2.
        -- split; [|split; [|exact G2]].
           ++ rewrite C2.
              replace (Z.max (c + 1) (Qceiling cycles))
                with (Z.max c (Qceiling cycles)) by lia.
              reflexivity.
           ++
              intros _. destruct k2 as [|k2]; [exact F1 | apply F2; lia].
    + exists 0%nat. split; [lia|]. cbn [advance_n].
      split; [split; [intros i Hi; lia | exact R]|].
      split; [|split; [lia | exact G]].
      unfold running in R. apply Qlt_bool_false in R.
      assert (Qceiling cycles <= c)%Z.
      { pose proof (Qceiling_lt cycles) as U.
        assert (inject_Z (Qceiling cycles - 1) < inject_Z c) by lra.
        rewrite <- Zlt_Qlt in H. lia. }
      rewrite C, Z.max_l by lia. reflexivity.
Qed.
End Progress.

(** ** The loop and the board *)

Lemma servo_writes_app (l1 l2 : list Event) :
  servo_writes (l1 ++ l2) = servo_writes l1 ++ servo_writes l2.
Proof.
  induction l1 as [|ev l1 IH]; [reflexivity|].
  destruct ev; cbn [servo_writes app]; rewrite IH; reflexivity.
Qed.

Lemma in_range_constrain (a : Q) : in_range (Math_constrain a 0 ANGLE_RANGE).
Proof. apply Math_constrain_range. unfold ANGLE_RANGE. lra. Qed.

Section Loop.
Variable button : nat -> bool.
Variables s e d cycles : Q.

(** What one run of the body does. *)
Lemma sweep_body_spec (st : Loop) :
  let st1 := fst (sweep_body button s e d st) in
  snd (sweep_body button s e d st) = button (polls (l_board st)) /\
  l_vars st1 = sweep_advance s e (l_vars st) /\
  polls (l_board st1) = S (polls (l_board st)) /\
  log (l_board st1) =
    log (l_board st)
    ++ [ServoWritePin (pin (l_this st))
          (angleToPulse (Math_constrain (current (l_vars st)) 0 ANGLE_RANGE));
        Pause d] /\
  pin (l_this st1) = pin (l_this st) /\
  currentAngle (l_this st1) = Math_constrain (current (l_vars st)) 0 ANGLE_RANGE /\
  isActive (l_this st1) = true.
Proof.
  unfold sweep_body, Servo_setAngle, buttonIsPressed, emit.
  cbn. rewrite <- app_assoc. repeat split; reflexivity.
Qed.

Lemma sweep_loop_unfold (fuel : nat) (st : Loop) :
  sweep_loop fuel button s e d cycles st =
  if running cycles (l_vars st) then
    match fuel with
    | O => None
    | S fuel' =>
        if snd (sweep_body button s e d st)
        then Some (fst (sweep_body button s e d st))
        else sweep_loop fuel' button s e d cycles (fst (sweep_body button s e d st))
    end
  else Some st.
Proof.
  destruct fuel; cbn [sweep_loop]; unfold running;
    destruct (Qlt_bool _ _); reflexivity.
Qed.

(** A sweep that returns has run its body some [k] times, not more than
    the fuel: one write, one pause and one read of the button each time. *)
Lemma sweep_loop_effects (fuel : nat) (st st' : Loop) :
  sweep_loop fuel button s e d cycles st = Some st' ->
  exists k, (k <= fuel)%nat /\
    l_vars st' = advance_n s e k (l_vars st) /\
    polls (l_board st') = (polls (l_board st) + k)%nat /\
    length (servo_writes (log (l_board st')))
      = (length (servo_writes (log (l_board st))) + k)%nat /\
    pin (l_this st') = pin (l_this st) /\
    (in_range (currentAngle (l_this st)) -> in_range (currentAngle (l_this st'))).
Proof.
  revert st. induction fuel as [|fuel IH]; intros st; rewrite sweep_loop_unfold.
  - destruct (running cycles (l_vars st)); [discriminate|].
    intros [= <-]. exists 0%nat. cbn [advance_n].
    rewrite !Nat.add_0_r. split; [lia|]. repeat (split; [reflexivity|]). auto.
  - destruct (running cycles (l_vars st)).
    + destruct (sweep_body_spec st) as (Hb & Hv & Hp & Hl & Hpin & Ha & _).
      set (st1 := fst (sweep_body button s e d st)) in *.
      assert (W : length (servo_writes (log (l_board st1)))
                  = S (length (servo_writes (log (l_board st))))).
      { rewrite Hl, servo_writes_app, length_app. cbn. lia. }
      destruct (snd (sweep_body button s e d st)).
      * intros [= <-]. exists 1%nat. cbn [advance_n].
        split; [lia|]. split; [exact Hv|]. split; [lia|]. split; [lia|].
        split; [exact Hpin|]. intros _. rewrite Ha. apply in_range_constrain.
      * intros H. destruct (IH st1 H) as (k & Hk & Kv & Kp & Kw & Kpin & Ka).
        exists (S k). cbn [advance_n]. rewrite <- Hv.
        split; [lia|]. split; [exact Kv|]. split; [lia|]. split; [lia|].
        split; [congruence|]. intros _. apply Ka. rewrite Ha.
        apply in_range_constrain.
    + intros [= <-]. exists 0%nat. cbn [advance_n].
      rewrite !Nat.add_0_r. split; [lia|]. repeat (split; [reflexivity|]). auto.
Qed.

(** More fuel does not change the result. *)
Lemma sweep_loop_more_fuel (fuel fuel' : nat) (st st' : Loop) :
  sweep_loop fuel button s e d cycles st = Some st' -> (fuel <= fuel')%nat ->
  sweep_loop fuel' button s e d cycles st = Some st'.
Proof.
  revert fuel' st. induction fuel as [|fuel IH]; intros fuel' st;
    rewrite (sweep_loop_unfold fuel' st);
    [rewrite (sweep_loop_unfold 0 st) | rewrite (sweep_loop_unfold (S fuel) st)];
    destruct (running cycles (l_vars st)); auto.
  - discriminate.
  - destruct fuel' as [|fuel']; [lia|].
    destruct (snd (sweep_body button s e d st)); [auto|].
    intros H L. apply (IH fuel'); [exact H | lia].
Qed.

(** If the loop left alone ends after [k] runs of the body, then it ends
    within [k] runs whatever the button does. *)
Lemma sweep_loop_ends (k : nat) (st : Loop) :
  running cycles (advance_n s e k (l_vars st)) = false ->
  exists st', sweep_loop k button s e d cycles st = Some st'.
Proof.
  revert st. induction k as [|k IH]; intros st R; rewrite sweep_loop_unfold.
  - cbn [advance_n] in R. rewrite R. eauto.
  - destruct (running cycles (l_vars st)); [|eauto].
    destruct (snd (sweep_body button s e d st)); [eauto|].
    apply IH. destruct (sweep_body_spec st) as (_ & Hv & _).
    cbn zeta in Hv. rewrite Hv. exact R.
Qed.

(** If the button reads pressed at the [n]-th read from now, the loop
    has ended by then. *)
Lemma sweep_loop_pressed (n : nat) (st : Loop) :
  button (polls (l_board st) + n)%nat = true ->
  exists st', sweep_loop (S n) button s e d cycles st = Some st'.
Proof.
  revert st. induction n as [|n IH]; intros st P; rewrite sweep_loop_unfold;
    (destruct (running cycles (l_vars st)); [|eauto]);
    destruct (sweep_body_spec st) as (Hb & _ & Hp & _).
  - rewrite Hb. rewrite Nat.add_0_r in P. rewrite P. eauto.
  - destruct (snd (sweep_body button s e d st)); [eauto|].
    apply IH. cbn zeta in Hp. rewrite Hp.
    replace (S (polls (l_board st)) + n)%nat
      with (polls (l_board st) + S n)%nat by lia.
    exact P.
Qed.
End Loop.

(** With the button never pressed the loop runs exactly as long as the loop
    left alone. *)
Lemma sweep_loop_never (s e d cycles : Q) (k : nat) (st : Loop) :
  exits_at s e cycles k (l_vars st) ->
  exists st', sweep_loop k never_pressed s e d cycles st = Some st' /\
    l_vars st' = advance_n s e k (l_vars st) /\
    polls (l_board st') = (polls (l_board st) + k)%nat.
Proof.
  revert st. induction k as [|k IH]; intros st [E1 E2];
    rewrite sweep_loop_unfold.
  - cbn [advance_n] in E2. rewrite E2. exists st.
    rewrite Nat.add_0_r. repeat split; reflexivity.
  - pose proof (E1 0%nat ltac:(lia)) as R0. cbn [advance_n] in R0. rewrite R0.
    destruct (sweep_body_spec never_pressed s e d st) as (Hb & Hv & Hp & _).
    rewrite Hb. unfold never_pressed at 1.
    set (st1 := fst (sweep_body never_pressed s e d st)) in *.
    destruct (IH st1) as (st' & L & V & P).
    + rewrite Hv. split.
      * intros i Hi. apply (E1 (S i)). lia.
      * exact E2.
    + exists st'. split; [exact L|]. split.
      * rewrite V, Hv. reflexivity.
      * rewrite P, Hp. lia.
Qed.

(** ** The whole sweep *)

Lemma Math_max_spec (a b : Q) : a <= Math_max a b /\ b <= Math_max a b.
Proof. unfold Math_max. case_lt; lra. Qed.


Lemma cycles_wanted_pos (cycles : Q) : (1 <= cycles_wanted cycles)%Z.
Proof.
  unfold cycles_wanted.
  pose proof (Math_max_spec 1 cycles) as [H _].
  pose proof (Qle_ceiling (Math_max 1 cycles)) as U.
  assert (L : inject_Z 0 < inject_Z (Qceiling (Math_max 1 cycles)))
    by (change (inject_Z 0) with 0; lra).
  rewrite <- Zlt_Qlt in L. lia.
Qed.

Lemma sweep_init_good (s e : Q) : Good s e (sweep_init s e).
Proof.
  unfold Good, sweep_init, FwdInv. cbn [forward step current].
  case_lt; [right; left; repeat split; lra | left; exact E].
Qed.

(** With the button never pressed, a sweep returns: it runs its body [k]
    times, not more than 361 times per cycle asked for, and leaves the loop
    at the end of a forward leg with the counter at the number of cycles
    asked for. *)
Lemma Servo_sweep_run_never (startAngle endAngle speed cycles : Q)
    (this : Servo) (b : Board) :
  let s := Math_constrain startAngle 0 ANGLE_RANGE in
  let e := Math_constrain endAngle 0 ANGLE_RANGE in
  exists k st,
    (1 <= k <= 361 * Z.to_nat (cycles_wanted cycles))%nat /\
    exits_at s e (Math_max 1 cycles) k (sweep_init s e) /\
    Servo_sweep_run k never_pressed startAngle endAngle speed cycles this b = Some st /\
    l_vars st = advance_n s e k (sweep_init s e) /\
    polls (l_board st) = (polls b + k)%nat /\
    cycleCount (l_vars st) == inject_Z (cycles_wanted cycles) /\
    forward (l_vars st) = false.
Proof.
  intros s e. pose proof (cycles_wanted_pos cycles) as Pos.
  destruct (exit_exists s e (in_range_constrain _) (in_range_constrain _)
              (Math_max 1 cycles) (Z.to_nat (cycles_wanted cycles))
              (sweep_init s e) 0%Z (sweep_init_good s e))
    as (k & Hk & E & C & F & _).
  - reflexivity.
  - unfold cycles_wanted in *. lia.
  - assert (K : (0 < k)%nat).
    { destruct k as [|k]; [|lia]. destruct E as [_ E]. cbn [advance_n] in E.
      unfold running, sweep_init in E. cbn [cycleCount] in E.
      apply Qlt_bool_false in E. pose proof (Math_max_spec 1 cycles). lra. }
    destruct (sweep_loop_never s e
                (Math_round (100 / Math_constrain speed 1 10))
                (Math_max 1 cycles) k
                {| l_this := this; l_board := b; l_vars := sweep_init s e |} E)
      as (st & L & V & P).
    exists k, st. cbn [l_vars l_board] in V, P.
    split; [lia|]. split; [exact E|]. split; [exact L|].
    split; [exact V|]. split; [exact P|]. rewrite V. split; [|apply F; exact K].
    rewrite C. fold (cycles_wanted cycles).
    rewrite Z.max_r by lia. reflexivity.
Qed.

(** Whatever the button does, a sweep returns within 361 runs of the body
    per cycle asked for. *)
Lemma Servo_sweep_run_returns (button : nat -> bool)
    (startAngle endAngle speed cycles : Q) (this : Servo) (b : Board) :
  exists st,
    Servo_sweep_run (361 * Z.to_nat (cycles_wanted cycles)) button
      startAngle endAngle speed cycles this b = Some st.
Proof.
  destruct (Servo_sweep_run_never startAngle endAngle speed cycles this b)
    as (k & _ & Hk & [_ E] & _).
  destruct (sweep_loop_ends button _ _
              (Math_round (100 / Math_constrain speed 1 10))
              (Math_max 1 cycles) k
              {| l_this := this; l_board := b;
                 l_vars := sweep_init (Math_constrain startAngle 0 ANGLE_RANGE)
                             (Math_constrain endAngle 0 ANGLE_RANGE) |} E)
    as (st & L).
  exists st. unfold Servo_sweep_run.
  apply (sweep_loop_more_fuel _ _ _ _ _ k); [exact L | lia].
Qed.

(** How the reversals relate to the counter and to each other. *)
Lemma reversals_count (s e : Q) (k : nat) (v : SweepVars) :
  cycleCount (advance_n s e k v)
    == cycleCount v + inject_Z (Z.of_nat (reversals s e false k v)) /\
  (Z.of_nat (reversals s e false k v) - Z.of_nat (reversals s e true k v)
   = Z.b2z (forward v) - Z.b2z (forward (advance_n s e k v)))%Z.
Proof.
  revert v. induction k as [|k IH]; intros v.
  - cbn [advance_n reversals]. change (inject_Z (Z.of_nat 0)) with 0.
    split; [lra | lia].
  - cbn [advance_n reversals]. destruct (IH (sweep_advance s e v)) as [C D].
    rewrite !Nat2Z.inj_add, inject_Z_plus.
    destruct (sweep_advance_cases s e v) as [(F & F1 & C1) | [(F & F1 & C1) | (F1 & C1)]].
    + rewrite F, F1 in *. cbn [eqb negb andb Z.b2z] in *.
      change (inject_Z (Z.of_nat 1)) with 1. split; [lra | lia].
    + rewrite F, F1 in *. cbn [eqb negb andb Z.b2z] in *.
      change (inject_Z (Z.of_nat 0)) with 0. split; [lra | lia].
    + rewrite F1 in *.
      destruct (forward v); cbn [eqb negb andb Z.b2z] in *;
        change (inject_Z (Z.of_nat 0)) with 0; (split; [lra | lia]).
Qed.

(** ** A sweep with [endAngle <= startAngle] *)

Lemma exits_at_0 (s e cycles : Q) (v : SweepVars) :
  running cycles v = false -> exits_at s e cycles 0 v.
Proof. intros R. split; [intros i Hi; lia | exact R]. Qed.

Lemma exits_at_S (s e cycles : Q) (k : nat) (v : SweepVars) :
  running cycles v = true -> exits_at s e cycles k (sweep_advance s e v) ->
  exits_at s e cycles (S k) v.
Proof.
  intros R [E1 E2]. split; [|exact E2].
  intros [|i] Hi; [exact R | apply E1; lia].
Qed.

(** The test of the [while] when the counter holds the integer [c]. *)
Lemma running_int (cycles : Q) (v : SweepVars) (c : Z) :
  cycleCount v == inject_Z c ->
  running cycles v = (c <? Qceiling cycles)%Z.
Proof.
  intros C. unfold running.
  pose proof (Qle_ceiling cycles) as U. pose proof (Qceiling_lt cycles) as L.
  destruct (Z.ltb_spec c (Qceiling cycles)) as [H|H].
  - apply Qlt_bool_iff.
    assert (inject_Z c <= inject_Z (Qceiling cycles - 1))
      by (rewrite <- Zle_Qle; lia).
    lra.
  - apply Qlt_bool_false.
    assert (inject_Z (Qceiling cycles) <= inject_Z c)
      by (rewrite <- Zle_Qle; lia).
    lra.
Qed.

(** When every position is at a bound, each run of the body reverses, and
    the loop entered on a forward leg runs its body [2n + 1] times to count
    [n + 1] cycles. *)
Lemma always_exit (s e cycles : Q) (n : nat) (v : SweepVars) (c : Z) :
  in_range s -> in_range e -> e <= s ->
  forward v = true -> cycleCount v == inject_Z c ->
  (Qceiling cycles - c = Z.of_nat (S n))%Z ->
  exits_at s e cycles (2 * n + 1) v.
Proof.
  intros Rs Re D. revert v c. induction n as [|n IH]; intros v c F C N.
  - destruct (always_fwd s e v D F) as [F1 C1].
    apply exits_at_S.
    + rewrite (running_int cycles v c C). apply Z.ltb_lt. lia.
    + apply exits_at_0. rewrite (running_int cycles _ (c + 1)).
      * apply Z.ltb_ge. lia.
      * rewrite C1, C, inject_Z_plus. reflexivity.
  - destruct (always_fwd s e v D F) as [F1 C1].
    destruct (always_back s e _ D F1) as [F2 C2].
    assert (C' : cycleCount (sweep_advance s e v) == inject_Z (c + 1))
      by (rewrite C1, C, inject_Z_plus; reflexivity).
    replace (2 * S n + 1)%nat with (S (S (2 * n + 1))) by lia.
    apply exits_at_S; [rewrite (running_int cycles v c C); apply Z.ltb_lt; lia|].
    apply exits_at_S;
      [rewrite (running_int cycles _ (c + 1) C'); apply Z.ltb_lt; lia|].
    apply (IH _ (c + 1)%Z F2); [rewrite C2; exact C' | lia].
Qed.

(** * The claims *)

(** ** Conversion and single writes *)

(** Every pulse written for an angle is between 500 and 2500 microseconds. *)
Lemma angleToPulse_bounds (a : Q) : 500 <= angleToPulse a <= 2500.
Proof.
  assert (E : angleToPulse a = angleToPulse (Math_constrain a 0 ANGLE_RANGE)).
  { unfold angleToPulse.
    rewrite (Math_constrain_idem a 0 ANGLE_RANGE) by (unfold ANGLE_RANGE; lra).
    reflexivity. }
  destruct (in_range_constrain a) as [L U]. rewrite E. split.
  - change 500 with (angleToPulse 0). apply angleToPulse_mono. exact L.
  - change 2500 with (angleToPulse 180). apply angleToPulse_mono. exact U.
Qed.

(** C7. [stop()] leaves [currentAngle] (so [getAngle()]) and the pin as they
    are and sets [isActive] to false.  It issues one write, the analog write
    of 0 to the pin: no servo pulse is written, and the value differs from
    every pulse [setAngle] writes, which is at least 500. *)
Theorem stop_keeps_angle (this : Servo) (b : Board) :
  let this1 := fst (Servo_stop this b) in
  let b1 := snd (Servo_stop this b) in
  Servo_getAngle this1 = Servo_getAngle this /\
  isActive this1 = false /\
  pin this1 = pin this /\
  log b1 = log b ++ [AnalogWritePin (pin this) 0] /\
  polls b1 = polls b /\
  servo_writes (log b1) = servo_writes (log b) /\
  (forall a : Q,
     log (snd (Servo_setAngle a this b))
       = log b ++ [ServoWritePin (pin this) (angleToPulse (Math_constrain a 0 180))] /\
     ~ angleToPulse (Math_constrain a 0 180) == 0).
Proof.
  cbn. repeat split; try reflexivity.
  - rewrite servo_writes_app. cbn. apply app_nil_r.
  - intros H. pose proof (angleToPulse_bounds (Math_constrain a 0 180)). lra.
Qed.

(** ** The sweep *)

Lemma exits_at_unique (s e cycles : Q) (k k' : nat) (v : SweepVars) :
  exits_at s e cycles k v -> exits_at s e cycles k' v -> k = k'.
Proof.
  intros [A1 A2] [B1 B2].
  destruct (Nat.lt_trichotomy k k') as [L | [L | L]]; [|exact L|].
  - rewrite (B1 k L) in A2. discriminate.
  - rewrite (A1 k' L) in B2. discriminate.
Qed.

(** C3, the claim as stated fails.  [sweep(0, 180, 10, 1)] with the button
    never pressed returns after 180 runs of the body with the counter at 1:
    it has written the angles 0, 1, ..., 179 once each, going up only, and
    has completed no forward-then-back traversal. *)
Lemma sweep_one_cycle_is_one_way :
  exists st,
    Servo_sweep_run 180 never_pressed 0 180 10 1
      (fst (Servo_new 0%Z Board_init)) Board_init = Some st /\
    polls (l_board st) = 180%nat /\
    cycleCount (l_vars st) = 1 /\
    servo_writes (log (l_board st))
      = map (fun i => angleToPulse (inject_Z (Z.of_nat i))) (seq 0 180) /\
    Servo_getAngle (l_this st) = 179 /\
    reversals 0 180 true 180 (sweep_init 0 180) = 0%nat /\
    reversals 0 180 true 180 (sweep_init 0 180) <> Z.to_nat (cycles_wanted 1).
Proof.
  eexists. split; [vm_compute; reflexivity|].
  repeat split; try (vm_compute; reflexivity).
  vm_compute. discriminate.
Qed.

Lemma Math_constrain_eq (a b lo hi : Q) :
  a == b -> Math_constrain a lo hi == Math_constrain b lo hi.
Proof. intros H. unfold Math_constrain. repeat case_lt; lra. Qed.

(** With [startAngle == endAngle] every position satisfies the bound check,
    so each run of the body reverses: with the button never pressed the
    sweep on finite numbers returns after exactly 2 n - 1 runs of the body
    for n cycles asked for. *)
Lemma sweep_equal_angles_exact (startAngle endAngle speed cycles : Q)
    (this : Servo) (b : Board) :
  startAngle == endAngle ->
  let s := Math_constrain startAngle 0 ANGLE_RANGE in
  let e := Math_constrain endAngle 0 ANGLE_RANGE in
  let k := (2 * Z.to_nat (cycles_wanted cycles) - 1)%nat in
  (forall c : Q, at_bound s e c = true) /\
  exists st,
    Servo_sweep_run k never_pressed startAngle endAngle speed cycles this b = Some st /\
    exits_at s e (Math_max 1 cycles) k (sweep_init s e) /\
    polls (l_board st) = (polls b + k)%nat /\
    cycleCount (l_vars st) == inject_Z (cycles_wanted cycles).
Proof.
  intros Eq s e k.
  assert (D : e <= s).
  { pose proof (Math_constrain_eq startAngle endAngle 0 ANGLE_RANGE Eq) as H.
    fold s e in H. lra. }
  split; [intros c; apply at_bound_always; exact D|].
  pose proof (cycles_wanted_pos cycles) as Pos.
  assert (E : exits_at s e (Math_max 1 cycles) k (sweep_init s e)).
  { replace k with (2 * (Z.to_nat (cycles_wanted cycles) - 1) + 1)%nat
      by (unfold k; lia).
    apply (always_exit s e _ _ _ 0%Z); try apply in_range_constrain;
      try reflexivity; try exact D.
    unfold cycles_wanted in *. lia. }
  destruct (Servo_sweep_run_never startAngle endAngle speed cycles this b)
    as (k' & st & Hk & E' & L & V & P & C & F).
  fold s e in E', V.
  assert (k' = k) as -> by (apply (exits_at_unique _ _ _ _ _ _ E' E)).
  exists st. repeat (split; [assumption|]). exact C.
Qed.

(** C4, the claim as stated fails.  [sweep(90, 90, 5, 1)] with the button
    never pressed returns after one run of the body: the first position
    after the start, 89, satisfies the bound check. *)
Lemma sweep_equal_angles_returns :
  at_bound 90 90 (current (sweep_init 90 90) + step (sweep_init 90 90)) = true /\
  exists st,
    Servo_sweep_run 1 never_pressed 90 90 5 1
      (fst (Servo_new 0%Z Board_init)) Board_init = Some st /\
    polls (l_board st) = 1%nat /\
    ~ (forall fuel, Servo_sweep_run fuel never_pressed 90 90 5 1
         (fst (Servo_new 0%Z Board_init)) Board_init = None).
Proof.
  split; [vm_compute; reflexivity|].
  eexists. split; [vm_compute; reflexivity|]. split; [reflexivity|].
  intros H. specialize (H 1%nat). vm_compute in H. discriminate.
Qed.

(** C5. The button is read once after each step.  If it reads pressed at
    the [n]-th read of a sweep (counting from 0), the sweep has returned by
    then, whatever the number of cycles asked for: it has made at most
    [n + 1] angle writes and [n + 1] reads.  A run of the body that reads the
    button pressed is the last one. *)
Theorem sweep_stops_when_pressed (button : nat -> bool) (n : nat)
    (startAngle endAngle speed cycles : Q) (this : Servo) (b : Board) :
  button (polls b + n)%nat = true ->
  (exists st k,
     Servo_sweep_run (S n) button startAngle endAngle speed cycles this b = Some st /\
     (k <= S n)%nat /\
     polls (l_board st) = (polls b + k)%nat /\
     length (servo_writes (log (l_board st)))
       = (length (servo_writes (log b)) + k)%nat) /\
  (forall (fuel : nat) (s e d c : Q) (st : Loop),
     sweep_loop (S fuel) button s e d c st =
     if running c (l_vars st) then
       if button (polls (l_board st))
       then Some (fst (sweep_body button s e d st))
       else sweep_loop fuel button s e d c (fst (sweep_body button s e d st))
     else Some st).
Proof.
  intros P. split.
  - destruct (sweep_loop_pressed button
                (Math_constrain startAngle 0 ANGLE_RANGE)
                (Math_constrain endAngle 0 ANGLE_RANGE)
                (Math_round (100 / Math_constrain speed 1 10))
                (Math_max 1 cycles) n
                {| l_this := this; l_board := b;
                   l_vars := sweep_init (Math_constrain startAngle 0 ANGLE_RANGE)
                               (Math_constrain endAngle 0 ANGLE_RANGE) |} P)
      as (st & L).
    destruct (sweep_loop_effects _ _ _ _ _ _ _ _ L) as (k & Hk & _ & Kp & Kw & _).
    exists st, k. cbn [l_board] in Kp, Kw. repeat split; assumption.
  - intros fuel s e d c st. rewrite sweep_loop_unfold.
    destruct (sweep_body_spec button s e d st) as (Hb & _).
    rewrite Hb. reflexivity.
Qed.

Lemma sweep_stops_when_pressed_witness :
  exists st k,
    Servo_sweep_run 4 (fun i => Nat.eqb i 3) 0 180 5 2
      (fst (Servo_new 0%Z Board_init)) Board_init = Some st /\
    (k <= 4)%nat /\
    polls (l_board st) = (polls Board_init + k)%nat /\
    length (servo_writes (log (l_board st)))
      = (length (servo_writes (log Board_init)) + k)%nat.
Proof.
  apply (sweep_stops_when_pressed (fun i => Nat.eqb i 3) 3 0 180 5 2
           (fst (Servo_new 0%Z Board_init)) Board_init).
  reflexivity.
Defined.

(** ** No input is rejected *)


(** ** The stored angle stays in range *)

Lemma Servo_sweep_more_fuel (fuel fuel' : nat) (button : nat -> bool)
    (s e sp cy : Q) (this : Servo) (b : Board) (r : Servo * Board) :
  Servo_sweep fuel button s e sp cy this b = Some r -> (fuel <= fuel')%nat ->
  Servo_sweep fuel' button s e sp cy this b = Some r.
Proof.
  unfold Servo_sweep, Servo_sweep_run. intros H L.
  destruct (sweep_loop fuel _ _ _ _ _ _) as [st|] eqn:E; [|discriminate].
  rewrite (sweep_loop_more_fuel _ _ _ _ _ _ _ _ _ E L). exact H.
Qed.

Lemma Servo_sweep_in_range (fuel : nat) (button : nat -> bool)
    (s e sp cy : Q) (this this' : Servo) (b b' : Board) :
  Servo_sweep fuel button s e sp cy this b = Some (this', b') ->
  in_range (currentAngle this) ->
  in_range (currentAngle this') /\ pin this' = pin this.
Proof.
  unfold Servo_sweep, Servo_sweep_run. intros H R.
  destruct (sweep_loop fuel _ _ _ _ _ _) as [st|] eqn:E; [|discriminate].
  destruct (sweep_loop_effects _ _ _ _ _ _ _ _ E) as (k & _ & _ & _ & _ & P & A).
  injection H as <- <-. split; [apply A; exact R | exact P].
Qed.

Lemma run_call_more_fuel (fuel fuel' : nat) (button : nat -> bool) (c : Call)
    (this : Servo) (b : Board) (r : Servo * Board) :
  run_call fuel button c this b = Some r -> (fuel <= fuel')%nat ->
  run_call fuel' button c this b = Some r.
Proof.
  destruct c; cbn [run_call]; auto. apply Servo_sweep_more_fuel.
Qed.

Lemma run_calls_more_fuel (fuel fuel' : nat) (button : nat -> bool)
    (cs : list Call) (this : Servo) (b : Board) (r : Servo * Board) :
  run_calls fuel button cs this b = Some r -> (fuel <= fuel')%nat ->
  run_calls fuel' button cs this b = Some r.
Proof.
  revert this b. induction cs as [|c cs IH]; intros this b; cbn [run_calls]; auto.
  destruct (run_call fuel button c this b) as [[this1 b1]|] eqn:E; [|discriminate].
  intros H L. rewrite (run_call_more_fuel _ _ _ _ _ _ _ E L). apply IH; assumption.
Qed.

Lemma run_call_in_range (button : nat -> bool) (c : Call)
    (this : Servo) (b : Board) :
  in_range (currentAngle this) ->
  exists fuel this' b',
    run_call fuel button c this b = Some (this', b') /\
    in_range (currentAngle this').
Proof.
  intros R. destruct c as [a | s e sp cy | |]; cbn [run_call].
  - exists 0%nat. do 2 eexists. split; [reflexivity|]. apply in_range_constrain.
  - destruct (Servo_sweep_run_returns button s e sp cy this b) as (st & L).
    exists (361 * Z.to_nat (cycles_wanted cy))%nat, (l_this st), (l_board st).
    assert (S : Servo_sweep (361 * Z.to_nat (cycles_wanted cy)) button s e sp cy this b
                = Some (l_this st, l_board st))
      by (unfold Servo_sweep; rewrite L; reflexivity).
    split; [exact S|]. apply (Servo_sweep_in_range _ _ _ _ _ _ _ _ _ _ S R).
  - exists 0%nat. do 2 eexists. split; [reflexivity|]. exact R.
  - exists 0%nat. do 2 eexists. split; [reflexivity|]. exact R.
Qed.

Lemma run_calls_in_range (button : nat -> bool) (cs : list Call)
    (this : Servo) (b : Board) :
  in_range (currentAngle this) ->
  exists fuel this' b',
    run_calls fuel button cs this b = Some (this', b') /\
    in_range (currentAngle this').
Proof.
  revert this b. induction cs as [|c cs IH]; intros this b R.
  - exists 0%nat, this, b. split; [reflexivity | exact R].
  - destruct (run_call_in_range button c this b R) as (f1 & this1 & b1 & E1 & R1).
    destruct (IH this1 b1 R1) as (f2 & this2 & b2 & E2 & R2).
    exists (f1 + f2)%nat, this2, b2. split; [|exact R2].
    cbn [run_calls].
    rewrite (run_call_more_fuel f1 (f1 + f2) _ _ _ _ _ E1) by lia.
    apply (run_calls_more_fuel f2); [exact E2 | lia].
Qed.

(** ** The registry *)

Lemma wf_init : wf World_init.
Proof.
  split; cbn; intros *; rewrite lookup_empty; discriminate.
Qed.

Lemma connectServo_known (p : AnalogPin) (r : ref) (w : World) :
  servos w !! p = Some r -> connectServo p w = (r, w).
Proof. intros H. unfold connectServo. rewrite H. reflexivity. Qed.

Lemma connectServo_new (p : AnalogPin) (w : World) :
  servos w !! p = None ->
  connectServo p w =
  (length (heap w),
   {| heap := heap w ++ [fst (Servo_new p (w_board w))];
      servos := <[p := length (heap w)]> (servos w);
      w_board := snd (Servo_new p (w_board w)) |}).
Proof. intros H. unfold connectServo. rewrite H. reflexivity. Qed.


Lemma connectServo_wf (p : AnalogPin) (w : World) :
  wf w -> wf (snd (connectServo p w)).
Proof.
  intros [B I]. destruct (servos w !! p) as [r|] eqn:E.
  - rewrite (connectServo_known p r w E). split; assumption.
  - rewrite (connectServo_new p w E). split; cbn.
    + intros q r. rewrite length_app; cbn.
      destruct (decide (p = q)) as [<-|Hn].
      * rewrite lookup_insert_eq. intros [= <-]. lia.
      * rewrite lookup_insert_ne by exact Hn. intros H. apply B in H. lia.
    + intros q1 q2 r.
      destruct (decide (p = q1)) as [<-|H1], (decide (p = q2)) as [<-|H2];
        rewrite ?lookup_insert_eq, ?lookup_insert_ne by assumption.
      * reflexivity.
      * intros [= <-] H. apply B in H. lia.
      * intros H [= <-]. apply B in H. lia.
      * apply I.
Qed.








(** * Further properties *)

(** ** The pulse of an angle *)

Lemma angleToPulse_eq (a b : Q) : a == b -> angleToPulse a = angleToPulse b.
Proof.
  intros H. unfold angleToPulse, Math_round. f_equal. apply Qfloor_comp.
  pose proof (Math_constrain_eq a b 0 ANGLE_RANGE H) as C.
  rewrite !pulse_linear.
  set (x := Math_constrain a 0 ANGLE_RANGE) in *.
  set (y := Math_constrain b 0 ANGLE_RANGE) in *.
  unfold Qdiv. change (/ 180) with (1 # 180). lra.
Qed.

Lemma angleToPulse_inside (a : Q) :
  in_range a ->
  angleToPulse a = Math_round (((1 # 2) + a * (1 # 180) * 2) * 1000).
Proof.
  intros R. unfold angleToPulse, Math_round.
  rewrite (Math_constrain_inside a 0 ANGLE_RANGE) by exact R.
  f_equal. apply Qfloor_comp. rewrite pulse_linear.
  unfold Qdiv. change (/ 180) with (1 # 180). lra.
Qed.

(** X2. Two angles of the range that are one degree or more apart get pulses
    more than 10 microseconds apart: whole degrees never share a pulse. *)
Theorem angleToPulse_separates_degrees (a b : Q) :
  in_range a -> in_range b -> a + 1 <= b ->
  angleToPulse a + 10 < angleToPulse b.
Proof.
  intros Ra Rb H.
  rewrite (angleToPulse_inside a Ra), (angleToPulse_inside b Rb).
  pose proof (Math_round_nearest (((1 # 2) + a * (1 # 180) * 2) * 1000)) as [_ Ua].
  pose proof (Math_round_nearest (((1 # 2) + b * (1 # 180) * 2) * 1000)) as [Lb _].
  lra.
Qed.

Lemma angleToPulse_separates_degrees_witness :
  angleToPulse 89 + 10 < angleToPulse 90.
Proof.
  apply (angleToPulse_separates_degrees 89 90); unfold in_range; lra.
Defined.

(** ** The pause of a sweep *)




(** ** What a sweep issues *)

(** A sweep that returns has run its body [k] times, until the test of the
    [while] failed or the button read pressed, and has issued the events of
    those [k] runs. *)
Lemma sweep_loop_trace (button : nat -> bool) (s e d cycles : Q)
    (fuel : nat) (st st' : Loop) :
  sweep_loop fuel button s e d cycles st = Some st' ->
  exists k, (k <= fuel)%nat /\
    l_vars st' = advance_n s e k (l_vars st) /\
    polls (l_board st') = (polls (l_board st) + k)%nat /\
    log (l_board st')
      = log (l_board st) ++ sweep_events (pin (l_this st)) d s e k (l_vars st) /\
    (forall i, (i < k)%nat ->
       running cycles (advance_n s e i (l_vars st)) = true /\
       ((S i < k)%nat -> button (polls (l_board st) + i)%nat = false)) /\
    (running cycles (advance_n s e k (l_vars st)) = false \/
     exists j, k = S j /\ button (polls (l_board st) + j)%nat = true) /\
    match k with
    | O => st' = st
    | S j =>
        pin (l_this st') = pin (l_this st) /\
        isActive (l_this st') = true /\
        currentAngle (l_this st')
          = Math_constrain (current (advance_n s e j (l_vars st))) 0 ANGLE_RANGE
    end.
Proof.
  revert st. induction fuel as [|fuel IH]; intros st;
    rewrite sweep_loop_unfold; destruct (running cycles (l_vars st)) eqn:R;
    try discriminate;
    try (intros [= <-]; exists 0%nat; cbn [advance_n sweep_events];
         rewrite Nat.add_0_r, app_nil_r;
         repeat (split; [first [lia | reflexivity | intros i Hi; lia]|]);
         split; [left; exact R | reflexivity]).
  destruct (sweep_body_spec button s e d st) as (Hb & Hv & Hp & Hl & Hpin & Ha & Hact).
  set (st1 := fst (sweep_body button s e d st)) in *.
  rewrite Hb. destruct (button (polls (l_board st))) eqn:B.
  - intros [= <-]. exists 1%nat. cbn [advance_n sweep_events].
    split; [lia|]. split; [exact Hv|]. split; [lia|]. split; [exact Hl|].
    split; [|split].
    + intros i Hi. replace i with 0%nat by lia. split; [exact R | lia].
    + right. exists 0%nat. rewrite Nat.add_0_r. split; [reflexivity | exact B].
    + repeat split; assumption.
  - intros H. destruct (IH st1 H) as (k & Hk & Kv & Kp & Kl & Kr & Ke & Ks).
    exists (S k). cbn [advance_n sweep_events]. rewrite <- Hv.
    split; [lia|]. split; [exact Kv|]. split; [lia|]. split.
    { rewrite Kl, Hl, Hpin, <- app_assoc. reflexivity. }
    split; [|split].
    + intros i Hi. destruct i as [|i].
      * split; [exact R|]. intros _. rewrite Nat.add_0_r. exact B.
      * destruct (Kr i ltac:(lia)) as [K1 K2]. cbn [advance_n]. rewrite <- Hv.
        split; [exact K1|]. intros Hi'. rewrite Hp in K2.
        replace (polls (l_board st) + S i)%nat
          with (S (polls (l_board st)) + i)%nat by lia.
        apply K2. lia.
    + destruct Ke as [Ke | (j & -> & Kj)]; [left; exact Ke|].
      right. exists (S j). split; [reflexivity|]. rewrite Hp in Kj.
      replace (polls (l_board st) + S j)%nat
        with (S (polls (l_board st)) + j)%nat by lia.
      exact Kj.
    + destruct k as [|j].
      * subst st'. repeat split; assumption.
      * destruct Ks as (K1 & K2 & K3). cbn [advance_n]. rewrite <- Hv.
        repeat split; [congruence | exact K2 | exact K3].
Qed.

Lemma running_init (s e cycles : Q) :
  running (Math_max 1 cycles) (sweep_init s e) = true.
Proof.
  unfold running, sweep_init; cbn [cycleCount]. apply Qlt_bool_iff.
  pose proof (Math_max_spec 1 cycles). lra.
Qed.

(** In exact arithmetic on finite numbers.
    A sweep that returns has run its loop body [k >= 1] times and has
    issued exactly, for each run in turn, the servo write of the clamped
    position and one pause of [Math.round(100 / speed)] ms: nothing else is
    written.  The button was read [k] times; the loop went on while the
    counter was below the cycles and the button read released, and ended
    because the counter reached the cycles or the last read was pressed.
    The stored angle is the last position written. *)
Lemma sweep_trace_exact (fuel : nat) (button : nat -> bool)
    (startAngle endAngle speed cycles : Q) (this : Servo) (b : Board) (st : Loop) :
  Servo_sweep_run fuel button startAngle endAngle speed cycles this b = Some st ->
  let s := Math_constrain startAngle 0 ANGLE_RANGE in
  let e := Math_constrain endAngle 0 ANGLE_RANGE in
  let v0 := sweep_init s e in
  exists j, (S j <= fuel)%nat /\
    log (l_board st)
      = log b ++ sweep_events (pin this) (sweep_delay speed) s e (S j) v0 /\
    polls (l_board st) = (polls b + S j)%nat /\
    l_vars st = advance_n s e (S j) v0 /\
    (forall i, (i <= j)%nat ->
       running (Math_max 1 cycles) (advance_n s e i v0) = true /\
       ((i < j)%nat -> button (polls b + i)%nat = false)) /\
    (running (Math_max 1 cycles) (advance_n s e (S j) v0) = false \/
     button (polls b + j)%nat = true) /\
    pin (l_this st) = pin this /\
    isActive (l_this st) = true /\
    Servo_getAngle (l_this st)
      = Math_constrain (current (advance_n s e j v0)) 0 ANGLE_RANGE.
Proof.
  intros H s e v0. unfold Servo_sweep_run in H.
  destruct (sweep_loop_trace _ _ _ _ _ _ _ _ H)
    as (k & Hk & Kv & Kp & Kl & Kr & Ke & Ks).
  cbn [l_vars l_board l_this] in *. fold s e v0 in Kv, Kl, Kr, Ke, Ks.
  destruct k as [|j].
  - destruct Ke as [Ke | (j & Hj & _)]; [|discriminate].
    cbn [advance_n] in Ke. unfold v0 in Ke. rewrite running_init in Ke.
    discriminate.
  - exists j. split; [exact Hk|]. split; [exact Kl|]. split; [exact Kp|].
    split; [exact Kv|]. split; [|split].
    + intros i Hi. destruct (Kr i ltac:(lia)) as [K1 K2].
      split; [exact K1|]. intros Hi'. apply K2. lia.
    + destruct Ke as [Ke | (j' & [= <-] & Kj)]; [left | right]; assumption.
    + exact Ks.
Qed.

(** In exact arithmetic on finite numbers.
    The button is read only after a step: a sweep called with the
    button already pressed still moves the servo to the clamped start angle,
    pauses once, and only then returns. *)
Lemma sweep_pressed_at_once_exact (fuel : nat) (button : nat -> bool)
    (startAngle endAngle speed cycles : Q) (this : Servo) (b : Board) :
  button (polls b) = true ->
  let s := Math_constrain startAngle 0 ANGLE_RANGE in
  exists st,
    Servo_sweep_run (S fuel) button startAngle endAngle speed cycles this b = Some st /\
    log (l_board st)
      = log b ++ [ServoWritePin (pin this) (angleToPulse s); Pause (sweep_delay speed)] /\
    polls (l_board st) = S (polls b) /\
    Servo_getAngle (l_this st) = s /\
    isActive (l_this st) = true.
Proof.
  intros P s. unfold Servo_sweep_run. fold s.
  set (e := Math_constrain endAngle 0 ANGLE_RANGE).
  set (st0 := {| l_this := this; l_board := b; l_vars := sweep_init s e |}).
  rewrite sweep_loop_unfold.
  change (l_vars st0) with (sweep_init s e). rewrite running_init.
  destruct (sweep_body_spec button s e (sweep_delay speed) st0)
    as (Hb & Hv & Hp & Hl & Hpin & Ha & Hact).
  fold (sweep_delay speed). rewrite Hb. change (l_board st0) with b. rewrite P.
  assert (I : Math_constrain s 0 ANGLE_RANGE = s)
    by (apply Math_constrain_idem; unfold ANGLE_RANGE; lra).
  eexists. split; [reflexivity|].
  cbn [l_board l_this l_vars st0 sweep_init current] in *.
  rewrite I in Hl, Ha.
  split; [exact Hl|]. split; [exact Hp|]. split; [exact Ha | exact Hact].
Qed.

Lemma sweep_body_pin (button : nat -> bool) (s e d : Q)
    (this this' : Servo) (b : Board) (v : SweepVars) :
  pin this = pin this' ->
  sweep_body button s e d {| l_this := this; l_board := b; l_vars := v |}
  = sweep_body button s e d {| l_this := this'; l_board := b; l_vars := v |}.
Proof.
  intros P. unfold sweep_body, Servo_setAngle. cbn. rewrite P. reflexivity.
Qed.

(** In exact arithmetic on finite numbers.
    A sweep does not start from where the servo is: its result depends
    on the pin only, not on the angle stored before or on the active
    flag. *)
Lemma sweep_ignores_previous_state_exact (fuel : nat) (button : nat -> bool)
    (startAngle endAngle speed cycles : Q) (this this' : Servo) (b : Board) :
  pin this = pin this' ->
  Servo_sweep fuel button startAngle endAngle speed cycles this b
  = Servo_sweep fuel button startAngle endAngle speed cycles this' b.
Proof.
  intros P. unfold Servo_sweep, Servo_sweep_run.
  rewrite !sweep_loop_unfold. cbn [l_vars]. rewrite running_init.
  destruct fuel as [|fuel]; [reflexivity|].
  rewrite (sweep_body_pin button _ _ _ this this' b _ P). reflexivity.
Qed.

(** ** Where a sweep goes *)

Lemma advance_n_inv (s e : Q) (P : SweepVars -> Prop) (v : SweepVars) :
  (forall u, P u -> P (sweep_advance s e u)) -> P v ->
  forall n, P (advance_n s e n v).
Proof.
  intros Step H n. revert v H. induction n as [|n IH]; intros v H; [exact H|].
  cbn [advance_n]. apply IH. apply Step. exact H.
Qed.

Ltac step_cases s e v :=
  unfold sweep_advance;
  let B := fresh "B" in
  match goal with
  | F : forward v = _, St : step v = _ |- _ =>
      rewrite F, St;
      destruct (at_bound s e (current v + _)) eqn:B;
      [apply at_bound_iff in B | apply at_bound_false in B];
      cbn [forward step current cycleCount]
  end.

Lemma tight_advance (s e : Q) (v : SweepVars) :
  Tight s e v -> Tight s e (sweep_advance s e v).
Proof.
  unfold Tight. intros [(F & St & Lo & Hi) | (F & St & Lo & Hi)]; step_cases s e v.
  - right. repeat split; lra.
  - left. repeat split; lra.
  - left. repeat split; lra.
  - right. repeat split; lra.
Qed.

Lemma inside_advance (s e : Q) (v : SweepVars) :
  s + 2 <= e -> Inside s e v -> Inside s e (sweep_advance s e v).
Proof.
  unfold Inside. intros W [(F & St & Lo & Hi) | (F & St & Lo & Hi)]; step_cases s e v.
  - right. repeat split; lra.
  - left. repeat split; lra.
  - left. repeat split; lra.
  - right. repeat split; lra.
Qed.

Lemma stuck_advance (s e : Q) (v : SweepVars) :
  e <= s -> Stuck s v ->
  Stuck s (sweep_advance s e v) /\
  forward (sweep_advance s e v) = negb (forward v).
Proof.
  unfold Stuck. intros D [(F & St & C) | (F & St & C)]; step_cases s e v.
  - split; [right; repeat split; lra | reflexivity].
  - exfalso. destruct (Qlt_le_dec (current v + -1) e); lra.
  - split; [left; repeat split; lra | reflexivity].
  - exfalso. destruct (Qlt_le_dec (current v + 1) e); lra.
Qed.

Lemma stuck_parity (s e : Q) (v : SweepVars) (i : nat) :
  e <= s -> Stuck s v -> forward v = true ->
  Stuck s (advance_n s e i v) /\ forward (advance_n s e i v) = Nat.even i.
Proof.
  intros D S0 F0. induction i as [|i [IS IF]]; [split; assumption|].
  rewrite advance_n_S. destruct (stuck_advance s e _ D IS) as [S1 F1].
  split; [exact S1|]. rewrite F1, IF, Nat.even_succ, <- Nat.negb_even.
  reflexivity.
Qed.

Lemma constrain_lt (c e : Q) :
  in_range e -> 0 < e -> c < e -> Math_constrain c 0 ANGLE_RANGE < e.
Proof.
  intros [_ U] P H. unfold Math_constrain, ANGLE_RANGE. repeat case_lt; lra.
Qed.

(** The angle stored when a sweep returns is its last position, clamped. *)
Lemma sweep_final_angle (fuel : nat) (button : nat -> bool)
    (startAngle endAngle speed cycles : Q) (this : Servo) (b : Board) (st : Loop) :
  Servo_sweep_run fuel button startAngle endAngle speed cycles this b = Some st ->
  let s := Math_constrain startAngle 0 ANGLE_RANGE in
  let e := Math_constrain endAngle 0 ANGLE_RANGE in
  exists j,
    polls (l_board st) = (polls b + S j)%nat /\
    Servo_getAngle (l_this st)
      = Math_constrain (current (advance_n s e j (sweep_init s e))) 0 ANGLE_RANGE.
Proof.
  intros H s e. unfold Servo_sweep_run in H.
  destruct (sweep_loop_trace _ _ _ _ _ _ _ _ H)
    as (k & _ & _ & Kp & _ & _ & Ke & Ks).
  cbn [l_vars l_board l_this] in *. fold s e in Ke, Ks.
  destruct k as [|j].
  - destruct Ke as [Ke | (j & Hj & _)]; [|discriminate].
    cbn [advance_n] in Ke. rewrite running_init in Ke. discriminate.
  - exists j. split; [exact Kp | apply Ks].
Qed.

(** In exact arithmetic on finite numbers.
    A sweep with the clamped start below the clamped end never reaches
    the end angle: every position it writes is strictly below it (and less
    than 2 below the start), and so is the angle stored when it returns. *)
Lemma ascending_sweep_below_end_exact (fuel : nat) (button : nat -> bool)
    (startAngle endAngle speed cycles : Q) (this : Servo) (b : Board) (st : Loop) :
  Math_constrain startAngle 0 ANGLE_RANGE < Math_constrain endAngle 0 ANGLE_RANGE ->
  Servo_sweep_run fuel button startAngle endAngle speed cycles this b = Some st ->
  let s := Math_constrain startAngle 0 ANGLE_RANGE in
  let e := Math_constrain endAngle 0 ANGLE_RANGE in
  (forall i,
     let c := current (advance_n s e i (sweep_init s e)) in
     s - 2 < c /\ c < e /\ Math_constrain c 0 ANGLE_RANGE < e) /\
  Servo_getAngle (l_this st) < e.
Proof.
  intros Lt Run s e. fold s e in Lt.
  pose proof (in_range_constrain startAngle) as Rs.
  pose proof (in_range_constrain endAngle) as Re. fold s in Rs. fold e in Re.
  assert (T : forall i, Tight s e (advance_n s e i (sweep_init s e))).
  { apply advance_n_inv; [apply tight_advance|].
    left. unfold sweep_init; cbn [forward step current].
    case_lt; [repeat split; lra | lra]. }
  assert (P : forall i,
             let c := current (advance_n s e i (sweep_init s e)) in
             s - 2 < c /\ c < e /\ Math_constrain c 0 ANGLE_RANGE < e).
  { intros i c. assert (s - 2 < c /\ c < e) as [A B]
      by (destruct (T i) as [(_ & _ & A & B) | (_ & _ & A & B)]; fold c in A, B; lra).
    split; [exact A|]. split; [exact B|].
    apply constrain_lt; [exact Re | destruct Rs; lra | exact B]. }
  split; [exact P|].
  destruct (sweep_final_angle _ _ _ _ _ _ _ _ _ Run) as (j & _ & A).
  fold s e in A. rewrite A. apply (P j).
Qed.

(** In exact arithmetic on finite numbers.
    A sweep whose clamped angles are 2 degrees or more apart stays
    between them: every position it writes is from the start angle up to,
    but not including, the end angle, is written as it is (the clamp of
    [setAngle] does nothing), and the angle stored when the sweep returns
    lies there too. *)
Lemma wide_sweep_stays_inside_exact (fuel : nat) (button : nat -> bool)
    (startAngle endAngle speed cycles : Q) (this : Servo) (b : Board) (st : Loop) :
  Math_constrain startAngle 0 ANGLE_RANGE + 2 <= Math_constrain endAngle 0 ANGLE_RANGE ->
  Servo_sweep_run fuel button startAngle endAngle speed cycles this b = Some st ->
  let s := Math_constrain startAngle 0 ANGLE_RANGE in
  let e := Math_constrain endAngle 0 ANGLE_RANGE in
  (forall i,
     let c := current (advance_n s e i (sweep_init s e)) in
     s <= c /\ c < e /\ Math_constrain c 0 ANGLE_RANGE = c) /\
  s <= Servo_getAngle (l_this st) /\ Servo_getAngle (l_this st) < e.
Proof.
  intros W Run s e. fold s e in W.
  pose proof (in_range_constrain startAngle) as Rs.
  pose proof (in_range_constrain endAngle) as Re. fold s in Rs. fold e in Re.
  assert (T : forall i, Inside s e (advance_n s e i (sweep_init s e))).
  { apply advance_n_inv; [intros u; apply inside_advance; exact W|].
    left. unfold sweep_init; cbn [forward step current].
    case_lt; [repeat split; lra | lra]. }
  assert (P : forall i,
             let c := current (advance_n s e i (sweep_init s e)) in
             s <= c /\ c < e /\ Math_constrain c 0 ANGLE_RANGE = c).
  { intros i c. assert (s <= c /\ c < e) as [A B]
      by (destruct (T i) as [(_ & _ & A & B) | (_ & _ & A & B)]; fold c in A, B; lra).
    split; [exact A|]. split; [exact B|].
    apply Math_constrain_inside. destruct Rs, Re. unfold ANGLE_RANGE. lra. }
  split; [exact P|].
  destruct (sweep_final_angle _ _ _ _ _ _ _ _ _ Run) as (j & _ & A).
  fold s e in A. rewrite A. destruct (P j) as (P1 & P2 & P3).
  rewrite P3. split; assumption.
Qed.

(** In exact arithmetic on finite numbers.
    A sweep whose clamped end is not above its clamped start does not
    travel: every run of the body reverses, the positions are the start
    angle on even runs and one degree above it on odd runs, and the angle
    stored when the sweep returns is one of the two, clamped: never below
    the start angle. *)
Lemma descending_sweep_stuck_exact (fuel : nat) (button : nat -> bool)
    (startAngle endAngle speed cycles : Q) (this : Servo) (b : Board) (st : Loop) :
  Math_constrain endAngle 0 ANGLE_RANGE <= Math_constrain startAngle 0 ANGLE_RANGE ->
  Servo_sweep_run fuel button startAngle endAngle speed cycles this b = Some st ->
  let s := Math_constrain startAngle 0 ANGLE_RANGE in
  let e := Math_constrain endAngle 0 ANGLE_RANGE in
  (forall i,
     forward (advance_n s e i (sweep_init s e)) = Nat.even i /\
     current (advance_n s e i (sweep_init s e))
       == s + (if Nat.even i then 0 else 1)) /\
  (exists j,
     polls (l_board st) = (polls b + S j)%nat /\
     Servo_getAngle (l_this st)
       == Math_constrain (s + (if Nat.even j then 0 else 1)) 0 ANGLE_RANGE) /\
  s <= Servo_getAngle (l_this st) /\ Servo_getAngle (l_this st) <= s + 1.
Proof.
  intros D Run s e. fold s e in D.
  pose proof (in_range_constrain startAngle) as Rs. fold s in Rs.
  assert (S0 : Stuck s (sweep_init s e)).
  { left. unfold sweep_init; cbn [forward step current].
    case_lt; [lra | repeat split; reflexivity]. }
  assert (P : forall i,
             forward (advance_n s e i (sweep_init s e)) = Nat.even i /\
             current (advance_n s e i (sweep_init s e))
               == s + (if Nat.even i then 0 else 1)).
  { intros i. destruct (stuck_parity s e _ i D S0 eq_refl) as [Si Fi].
    split; [exact Fi|]. rewrite <- Fi.
    destruct Si as [(F & _ & C) | (F & _ & C)]; rewrite F, C; lra. }
  split; [exact P|].
  destruct (sweep_final_angle _ _ _ _ _ _ _ _ _ Run) as (j & Pj & A).
  fold s e in A. destruct (P j) as [_ Cj].
  pose proof (Math_constrain_eq _ _ 0 ANGLE_RANGE Cj) as E.
  rewrite <- A in E.
  split; [exists j; split; [exact Pj | exact E]|].
  rewrite E. destruct Rs as [R0 R180].
  unfold Math_constrain, ANGLE_RANGE. destruct (Nat.even j); repeat case_lt; lra.
Qed.

(** ** The registry under whole programs *)

Lemma period_configs_app (p : AnalogPin) (l1 l2 : list Event) :
  period_configs p (l1 ++ l2) = (period_configs p l1 + period_configs p l2)%nat.
Proof.
  induction l1 as [|ev l1 IH]; [reflexivity|].
  destruct ev; cbn [period_configs app]; rewrite IH; lia.
Qed.

Lemma period_configs_sweep (p q : AnalogPin) (d s e : Q) (n : nat) (v : SweepVars) :
  period_configs p (sweep_events q d s e n v) = 0%nat.
Proof.
  revert v. induction n as [|n IH]; intros v; [reflexivity|].
  cbn [sweep_events period_configs]. apply IH.
Qed.

Lemma consistent_init : consistent World_init.
Proof.
  split; [exact wf_init|]. split; [reflexivity|]. split.
  - cbn. intros r sv H. discriminate.
  - cbn. intros p. rewrite lookup_empty. reflexivity.
Qed.

(** A method that keeps the pin, leaves the angle in range and configures no
    period keeps the world consistent. *)
Lemma consistent_update (w : World) (r : ref) (this this1 : Servo) (b1 : Board) :
  consistent w -> heap w !! r = Some this ->
  pin this1 = pin this -> in_range (currentAngle this1) ->
  (forall p, period_configs p (log b1) = period_configs p (log (w_board w))) ->
  consistent {| heap := <[r := this1]> (heap w); servos := servos w; w_board := b1 |}.
Proof.
  intros ([B I] & Sz & Ob & Pc) H Pin R Per.
  split; [split|split; [|split]]; cbn.
  - intros p r' E. rewrite length_insert. apply (B p r' E).
  - exact I.
  - rewrite length_insert. exact Sz.
  - intros r' sv. destruct (decide (r = r')) as [<-|N].
    + rewrite list_lookup_insert_eq by (apply lookup_lt_is_Some; eauto).
      intros [= <-]. rewrite Pin. split; [apply (Ob r this H) | exact R].
    + rewrite list_lookup_insert_ne by exact N. apply Ob.
  - intros p. rewrite Per. apply Pc.
Qed.

Lemma consistent_connect (p : AnalogPin) (w : World) :
  consistent w -> consistent (snd (connectServo p w)).
Proof.
  intros C. pose proof C as (W & Sz & Ob & Pc).
  split; [apply connectServo_wf; exact W|].
  destruct (servos w !! p) as [r|] eqn:E.
  - rewrite (connectServo_known p r w E).
    split; [exact Sz | split; [exact Ob | exact Pc]].
  - rewrite (connectServo_new p w E). cbn. split; [|split].
    + rewrite length_app, map_size_insert_None by exact E. cbn. lia.
    + intros r sv H. apply lookup_app_Some in H.
      destruct H as [H | [L H]].
      * destruct (Ob r sv H) as [K R]. split; [|exact R].
        assert (N : p <> pin sv) by (intros Hp; unfold ref in *; congruence).
        rewrite lookup_insert_ne by exact N. exact K.
      * destruct (r - length (heap w))%nat as [|n] eqn:D; [|discriminate].
        injection H as <-. cbn [pin currentAngle].
        rewrite lookup_insert_eq. split; [f_equal; lia|].
        unfold in_range. lra.
    + intros q. rewrite period_configs_app, Pc. cbn [period_configs].
      destruct (decide (p = q)) as [<-|N].
      * rewrite lookup_insert_eq, E, Z.eqb_refl. reflexivity.
      * rewrite lookup_insert_ne by exact N.
        replace (Z.eqb q p) with false by (symmetry; apply Z.eqb_neq; congruence).
        destruct (servos w !! q); reflexivity.
Qed.

Lemma Servo_sweep_periods (fuel : nat) (button : nat -> bool)
    (s e sp cy : Q) (this this1 : Servo) (b b1 : Board) (p : AnalogPin) :
  Servo_sweep fuel button s e sp cy this b = Some (this1, b1) ->
  period_configs p (log b1) = period_configs p (log b).
Proof.
  unfold Servo_sweep, Servo_sweep_run. intros H.
  destruct (sweep_loop fuel _ _ _ _ _ _) as [st|] eqn:E; [|discriminate].
  destruct (sweep_loop_trace _ _ _ _ _ _ _ _ E) as (k & _ & _ & _ & L & _).
  injection H as <- <-. cbn [l_board l_this l_vars] in L.
  rewrite L, period_configs_app, period_configs_sweep. lia.
Qed.

Lemma run_wcall_more_fuel (fuel fuel' : nat) (button : nat -> bool) (c : WCall)
    (w w' : World) :
  run_wcall fuel button c w = Some w' -> (fuel <= fuel')%nat ->
  run_wcall fuel' button c w = Some w'.
Proof.
  destruct c as [p | r a | r s e sp cy | r | r]; cbn [run_wcall]; auto.
  unfold sweep. destruct (heap w !! r) as [this|]; [|auto].
  destruct (Servo_sweep fuel _ _ _ _ _ _ _) as [[this1 b1]|] eqn:E; [|discriminate].
  intros H L. rewrite (Servo_sweep_more_fuel _ _ _ _ _ _ _ _ _ _ E L). exact H.
Qed.

Lemma run_world_more_fuel (fuel fuel' : nat) (button : nat -> bool)
    (cs : list WCall) (w w' : World) :
  run_world fuel button cs w = Some w' -> (fuel <= fuel')%nat ->
  run_world fuel' button cs w = Some w'.
Proof.
  revert w. induction cs as [|c cs IH]; intros w; cbn [run_world]; auto.
  destruct (run_wcall fuel button c w) as [w1|] eqn:E; [|discriminate].
  intros H L. rewrite (run_wcall_more_fuel _ _ _ _ _ _ E L). apply IH; assumption.
Qed.

Lemma run_wcall_consistent (button : nat -> bool) (c : WCall) (w : World) :
  consistent w ->
  exists fuel w', run_wcall fuel button c w = Some w' /\ consistent w'.
Proof.
  intros C. destruct c as [p | r a | r s e sp cy | r | r]; cbn [run_wcall].
  - exists 0%nat. eexists. split; [reflexivity|]. apply consistent_connect, C.
  - exists 0%nat. eexists. split; [reflexivity|]. unfold setAngle.
    destruct (heap w !! r) as [this|] eqn:H; [|exact C].
    apply (consistent_update w r this); auto.
    + apply in_range_constrain.
    + intros p. cbn. rewrite period_configs_app. cbn. lia.
  - unfold sweep. destruct (heap w !! r) as [this|] eqn:H;
      [|exists 0%nat; eexists; split; [reflexivity | exact C]].
    destruct (Servo_sweep_run_returns button s e sp cy this (w_board w)) as (st & L).
    exists (361 * Z.to_nat (cycles_wanted cy))%nat.
    assert (S : Servo_sweep (361 * Z.to_nat (cycles_wanted cy)) button s e sp cy
                  this (w_board w) = Some (l_this st, l_board st))
      by (unfold Servo_sweep; rewrite L; reflexivity).
    rewrite S. eexists. split; [reflexivity|].
    assert (R : in_range (currentAngle this))
      by (destruct C as (_ & _ & Ob & _); apply (Ob r this H)).
    apply (consistent_update w r this); auto.
    + apply (Servo_sweep_in_range _ _ _ _ _ _ _ _ _ _ S R).
    + apply (Servo_sweep_in_range _ _ _ _ _ _ _ _ _ _ S R).
    + intros p. apply (Servo_sweep_periods _ _ _ _ _ _ _ _ _ _ p S).
  - exists 0%nat. eexists. split; [reflexivity|]. unfold stop.
    destruct (heap w !! r) as [this|] eqn:H; [|exact C].
    apply (consistent_update w r this); auto.
    + cbn. destruct C as (_ & _ & Ob & _). apply (Ob r this H).
    + intros p. cbn. rewrite period_configs_app. cbn. lia.
  - exists 0%nat. eexists. split; [reflexivity | exact C].
Qed.

Lemma run_world_consistent (button : nat -> bool) (cs : list WCall) (w : World) :
  consistent w ->
  exists fuel w', run_world fuel button cs w = Some w' /\ consistent w'.
Proof.
  revert w. induction cs as [|c cs IH]; intros w C.
  - exists 0%nat, w. split; [reflexivity | exact C].
  - destruct (run_wcall_consistent button c w C) as (f1 & w1 & E1 & C1).
    destruct (IH w1 C1) as (f2 & w2 & E2 & C2).
    exists (f1 + f2)%nat, w2. split; [|exact C2]. cbn [run_world].
    rewrite (run_wcall_more_fuel f1 (f1 + f2) _ _ _ _ E1) by lia.
    apply (run_world_more_fuel f2); [exact E2 | lia].
Qed.

(** X11. An exported call drives the pin its controller was connected with:
    for the controller registered for pin [p], [setAngle] writes one servo
    pulse to [p] and [stop] one zero analog write to [p], and nothing to any
    other pin; the angle read back is the clamped one after [setAngle] and
    unchanged after [stop]. *)
Theorem calls_drive_registered_pin (w : World) (p : AnalogPin) (r : ref) (a : Q) :
  consistent w -> servos w !! p = Some r ->
  log (w_board (setAngle r a w))
    = log (w_board w) ++ [ServoWritePin p (angleToPulse (Math_constrain a 0 180))] /\
  getAngle r (setAngle r a w) = Some (Math_constrain a 0 180) /\
  log (w_board (stop r w)) = log (w_board w) ++ [AnalogWritePin p 0] /\
  getAngle r (stop r w) = getAngle r w /\
  is_Some (getAngle r w).
Proof.
  intros ([B I] & Sz & Ob & Pc) H.
  destruct (lookup_lt_is_Some_2 (heap w) r (B p r H)) as [sv Hsv].
  destruct (Ob r sv Hsv) as [K R].
  assert (P : pin sv = p) by (apply (I _ _ r K H)).
  unfold setAngle, stop, getAngle, ref in *. rewrite Hsv. cbn.
  rewrite !list_lookup_insert_eq by (apply lookup_lt_is_Some; eauto).
  rewrite P. repeat split; eauto.
Qed.

Lemma calls_drive_registered_pin_witness :
  log (w_board (setAngle 0%nat 200 (snd (connectServo 5%Z World_init))))
    = log (w_board (snd (connectServo 5%Z World_init)))
      ++ [ServoWritePin 5%Z (angleToPulse (Math_constrain 200 0 180))].
Proof.
  apply (calls_drive_registered_pin (snd (connectServo 5%Z World_init)) 5%Z 0%nat 200).
  - apply consistent_connect, consistent_init.
  - reflexivity.
Defined.

(** ** Where a completed sweep rests *)

(** In exact arithmetic on finite numbers.
    A sweep with the clamped start below the clamped end that runs to
    completion (the button never pressed) leaves the servo at the far end,
    not back at the start: the stored angle is less than one degree below
    the end angle, and never the end angle itself. *)
Lemma ascending_sweep_rests_near_end_exact (fuel : nat)
    (startAngle endAngle speed cycles : Q) (this : Servo) (b : Board) (st : Loop) :
  Math_constrain startAngle 0 ANGLE_RANGE < Math_constrain endAngle 0 ANGLE_RANGE ->
  Servo_sweep_run fuel never_pressed startAngle endAngle speed cycles this b = Some st ->
  let e := Math_constrain endAngle 0 ANGLE_RANGE in
  e - 1 <= Servo_getAngle (l_this st) /\ Servo_getAngle (l_this st) < e /\
  forward (l_vars st) = false.
Proof.
  intros Lt Run e. set (s := Math_constrain startAngle 0 ANGLE_RANGE) in *.
  fold e in Lt.
  pose proof (in_range_constrain startAngle) as Rs.
  pose proof (in_range_constrain endAngle) as Re. fold s in Rs. fold e in Re.
  unfold Servo_sweep_run in Run. fold s e in Run.
  destruct (sweep_loop_trace _ _ _ _ _ _ _ _ Run)
    as (k & _ & Kv & _ & _ & Kr & Ke & Ks).
  cbn [l_vars l_board l_this] in *.
  destruct k as [|j].
  { destruct Ke as [Ke | (j & Hj & _)]; [|discriminate].
    cbn [advance_n] in Ke. rewrite running_init in Ke. discriminate. }
  destruct Ke as [Ke | (j' & _ & Kj)]; [|discriminate].
  destruct (Kr j ltac:(lia)) as [Rj _].
  destruct Ks as (_ & _ & A).
  rewrite advance_n_S in Ke, Kv.
  set (v := advance_n s e j (sweep_init s e)) in *.
  assert (T : Tight s e v).
  { apply advance_n_inv; [apply tight_advance|].
    left. unfold sweep_init; cbn [forward step current].
    case_lt; [repeat split; lra | lra]. }
  assert (Fire : forward v = true /\ forward (sweep_advance s e v) = false).
  { destruct (sweep_advance_cases s e v) as [(F & F1 & _) | [(_ & _ & C) | (_ & C)]];
      [split; assumption | |];
      rewrite (running_eq _ _ _ C) in Ke; congruence. }
  destruct Fire as [F F1].
  destruct T as [(_ & St & Lo & Hi) | (F' & _)]; [|congruence].
  assert (B : e <= current v + 1).
  { revert F1. unfold sweep_advance. rewrite F, St.
    destruct (at_bound s e (current v + 1)) eqn:B; cbn [forward]; [|discriminate].
    intros _. apply at_bound_iff in B. destruct B; lra. }
  rewrite Kv. split; [|split; [|exact F1]]; unfold Servo_getAngle; rewrite A.
  - destruct Re as [E0 E180]. unfold Math_constrain, ANGLE_RANGE.
    repeat case_lt; lra.
  - apply constrain_lt; [exact Re | destruct Rs; lra | exact Hi].
Qed.

(** * The program on all numbers *)

(** ** On finite numbers the two embeddings agree *)

Lemma constrain_up (v lo hi : Q) :
  Ext.Math_constrain (Ext.Fin v) (Ext.Fin lo) (Ext.Fin hi)
  = Ext.Fin (Math_constrain v lo hi).
Proof.
  unfold Ext.Math_constrain, Math_constrain, Ext.gt. cbn [Ext.lt].
  destruct (Qlt_bool v lo); [reflexivity|].
  destruct (Qlt_bool hi v); reflexivity.
Qed.

Lemma max_up (a b : Q) :
  Ext.Math_max (Ext.Fin a) (Ext.Fin b) = Ext.Fin (Math_max a b).
Proof.
  unfold Ext.Math_max, Math_max, Ext.ge, Qlt_bool. cbn [Ext.le].
  destruct (Qle_bool b a); reflexivity.
Qed.

Lemma angleToPulse_up (a : Q) :
  Ext.angleToPulse (Ext.Fin a) = Ext.Fin (angleToPulse a).
Proof.
  unfold Ext.angleToPulse, Ext.ANGLE_RANGE. rewrite constrain_up. reflexivity.
Qed.

Lemma delay_up (speed : Q) :
  Ext.Math_round (Ext.div (Ext.Fin 100)
                    (Ext.Math_constrain (Ext.Fin speed) (Ext.Fin 1) (Ext.Fin 10)))
  = Ext.Fin (sweep_delay speed).
Proof.
  rewrite constrain_up. unfold sweep_delay.
  pose proof (Math_constrain_range speed 1 10 ltac:(lra)) as [L _].
  set (x := Math_constrain speed 1 10) in *. cbn [Ext.div].
  assert (G : (x ?= 0) = Gt) by (apply Qgt_alt; lra).
  rewrite G. reflexivity.
Qed.

Lemma setAngle_up (a : Q) (this : Servo) (b : Board) :
  Ext.Servo_setAngle (Ext.Fin a) (up_servo this) (up_board b)
  = up_result (Servo_setAngle a this b).
Proof.
  unfold Ext.Servo_setAngle, Servo_setAngle, up_result, up_servo, up_board,
    Ext.emit, emit, Ext.ANGLE_RANGE.
  cbn [fst snd Ext.pin Ext.currentAngle Ext.isActive pin currentAngle isActive
       Ext.log Ext.polls log polls].
  rewrite constrain_up, angleToPulse_up, map_app. reflexivity.
Qed.

Lemma stop_up (this : Servo) (b : Board) :
  Ext.Servo_stop (up_servo this) (up_board b) = up_result (Servo_stop this b).
Proof.
  unfold Ext.Servo_stop, Servo_stop, up_result, up_servo, up_board, Ext.emit, emit.
  cbn [fst snd Ext.pin Ext.currentAngle Ext.isActive pin currentAngle isActive
       Ext.log Ext.polls log polls].
  rewrite map_app. reflexivity.
Qed.

Lemma sweep_advance_up (s e : Q) (v : SweepVars) :
  Ext.sweep_advance (Ext.Fin s) (Ext.Fin e) (up_vars v)
  = up_vars (sweep_advance s e v).
Proof.
  unfold Ext.sweep_advance, sweep_advance, up_vars, Ext.at_bound, at_bound, Ext.ge.
  cbn [Ext.forward Ext.step Ext.current Ext.cycleCount Ext.add Ext.le].
  destruct (forward v);
    destruct (Qle_bool e (current v + step v) || Qle_bool (current v + step v) s);
    reflexivity.
Qed.

Lemma sweep_body_up (button : nat -> bool) (s e d : Q) (st : Loop) :
  Ext.sweep_body button (Ext.Fin s) (Ext.Fin e) (Ext.Fin d) (up_loop st)
  = (up_loop (fst (sweep_body button s e d st)), snd (sweep_body button s e d st)).
Proof.
  destruct st as [this b v].
  unfold Ext.sweep_body, up_loop.
  cbn [Ext.l_this Ext.l_board Ext.l_vars l_this l_board l_vars up_vars Ext.current].
  rewrite setAngle_up, sweep_advance_up.
  unfold sweep_body, up_result, Servo_setAngle, Ext.buttonIsPressed, buttonIsPressed,
    Ext.emit, emit, up_board, up_servo.
  cbn [fst snd Ext.log Ext.polls log polls l_this l_board l_vars pin currentAngle isActive].
  rewrite !map_app. cbn [map up_event]. reflexivity.
Qed.

(** The loop on finite numbers is the loop of the first embedding. *)
Lemma sweep_loop_up (fuel : nat) (button : nat -> bool) (s e d cycles : Q)
    (st : Loop) :
  Ext.sweep_loop fuel button (Ext.Fin s) (Ext.Fin e) (Ext.Fin d) (Ext.Fin cycles)
    (up_loop st)
  = option_map up_loop (sweep_loop fuel button s e d cycles st).
Proof.
  revert st. induction fuel as [|fuel IH]; intros st.
  - cbn [Ext.sweep_loop sweep_loop up_loop Ext.l_vars up_vars Ext.cycleCount Ext.lt].
    destruct (Qlt_bool (cycleCount (l_vars st)) cycles); reflexivity.
  - cbn [Ext.sweep_loop sweep_loop].
    change (Ext.lt (Ext.cycleCount (Ext.l_vars (up_loop st))) (Ext.Fin cycles))
      with (Qlt_bool (cycleCount (l_vars st)) cycles).
    destruct (Qlt_bool (cycleCount (l_vars st)) cycles); [|reflexivity].
    rewrite sweep_body_up.
    destruct (sweep_body button s e d st) as [st1 pressed]. cbn [fst snd].
    destruct pressed; [reflexivity | apply IH].
Qed.

Lemma sweep_init_up (s e : Q) :
  Ext.sweep_init (Ext.Fin s) (Ext.Fin e) = up_vars (sweep_init s e).
Proof.
  unfold Ext.sweep_init, sweep_init, up_vars. cbn [Ext.lt step current cycleCount forward].
  destruct (Qlt_bool s e); reflexivity.
Qed.

(** [sweep] on finite arguments is [sweep] of the first embedding. *)
Lemma Servo_sweep_run_up (fuel : nat) (button : nat -> bool)
    (startAngle endAngle speed cycles : Q) (this : Servo) (b : Board) :
  Ext.Servo_sweep_run fuel button (Ext.Fin startAngle) (Ext.Fin endAngle)
    (Ext.Fin speed) (Ext.Fin cycles) (up_servo this) (up_board b)
  = option_map up_loop
      (Servo_sweep_run fuel button startAngle endAngle speed cycles this b).
Proof.
  unfold Ext.Servo_sweep_run, Servo_sweep_run, Ext.ANGLE_RANGE.
  rewrite delay_up, !constrain_up, max_up, sweep_init_up.
  apply (sweep_loop_up fuel button _ _ _ _
           {| l_this := this; l_board := b; l_vars := sweep_init _ _ |}).
Qed.

Lemma Servo_sweep_up (fuel : nat) (button : nat -> bool)
    (startAngle endAngle speed cycles : Q) (this : Servo) (b : Board) :
  Ext.Servo_sweep fuel button (Ext.Fin startAngle) (Ext.Fin endAngle)
    (Ext.Fin speed) (Ext.Fin cycles) (up_servo this) (up_board b)
  = option_map up_result
      (Servo_sweep fuel button startAngle endAngle speed cycles this b).
Proof.
  unfold Ext.Servo_sweep, Servo_sweep. rewrite Servo_sweep_run_up.
  destruct (Servo_sweep_run fuel button startAngle endAngle speed cycles this b);
    reflexivity.
Qed.

Lemma run_calls_up (fuel : nat) (button : nat -> bool) (cs : list Call)
    (this : Servo) (b : Board) :
  Ext.run_calls fuel button (map up_call cs) (up_servo this) (up_board b)
  = option_map up_result (run_calls fuel button cs this b).
Proof.
  revert this b. induction cs as [|c cs IH]; intros this b; [reflexivity|].
  cbn [map Ext.run_calls run_calls].
  destruct c as [a | s e sp cy | |]; cbn [up_call Ext.run_call run_call].
  - rewrite setAngle_up. destruct (Servo_setAngle a this b) as [this1 b1].
    apply IH.
  - rewrite Servo_sweep_up.
    destruct (Servo_sweep fuel button s e sp cy this b) as [[this1 b1]|];
      [apply IH | reflexivity].
  - rewrite stop_up. destruct (Servo_stop this b) as [this1 b1]. apply IH.
  - apply IH.
Qed.

(** ** Conversion and [setAngle] on all numbers *)

(** What the clamp to [0,180] gives for a number that is not NaN. *)
Lemma constrain_angle_cases (a : Ext.number) :
  a <> Ext.NaN ->
  exists c, Ext.Math_constrain a (Ext.Fin 0) (Ext.Fin 180) = Ext.Fin c /\
    in_range c /\
    (Ext.lt a (Ext.Fin 0) = true -> c = 0) /\
    (Ext.gt a (Ext.Fin 180) = true -> c = 180) /\
    (forall q, a = Ext.Fin q -> in_range q -> c = q).
Proof.
  intros N. destruct a as [q | | |]; [| congruence | |].
  - exists (Math_constrain q 0 180). rewrite constrain_up.
    split; [reflexivity|]. split; [apply (in_range_constrain q)|].
    unfold Ext.gt; cbn [Ext.lt]. split; [|split].
    + intros H. apply Qlt_bool_iff in H. apply Math_constrain_below. exact H.
    + intros H. apply Qlt_bool_iff in H. apply Math_constrain_above; lra.
    + intros q' [= <-] R. apply Math_constrain_inside. exact R.
  - exists 180. split; [reflexivity|]. unfold in_range.
    split; [lra|]. split; [discriminate|]. split; [reflexivity|]. discriminate.
  - exists 0. split; [reflexivity|]. unfold in_range.
    split; [lra|]. split; [reflexivity|]. split; [discriminate|]. discriminate.
Qed.

Lemma angleToPulse_whole (c : Q) :
  in_range c ->
  exists z : Z,
    angleToPulse c = inject_Z z /\ (500 <= z <= 2500)%Z /\
    - (1 # 2) < inject_Z z - ((1 # 2) + (c / 180) * 2) * 1000 <= 1 # 2.
Proof.
  intros R.
  exists (Qfloor ((MIN_PULSE_MS
     + Math_constrain c 0 ANGLE_RANGE / ANGLE_RANGE * PULSE_RANGE_MS) * 1000 + (1 # 2))).
  split; [reflexivity|].
  pose proof (angleToPulse_bounds c) as [B1 B2].
  pose proof (Math_round_nearest
                ((MIN_PULSE_MS
                  + Math_constrain c 0 ANGLE_RANGE / ANGLE_RANGE * PULSE_RANGE_MS) * 1000))
    as [N1 N2].
  unfold angleToPulse, Math_round in *.
  set (z := Qfloor _) in *.
  split.
  - change 500 with (inject_Z 500) in B1. change 2500 with (inject_Z 2500) in B2.
    rewrite <- Zle_Qle in B1, B2. split; assumption.
  - rewrite (Math_constrain_inside c 0 ANGLE_RANGE R), pulse_linear in N1, N2.
    lra.
Qed.

Lemma angleToPulse_whole_degree (n : Z) :
  (0 <= n <= 180)%Z ->
  angleToPulse (inject_Z n) = inject_Z (500 + (200 * n + 9) / 18).
Proof.
  intros [L U].
  assert (R : in_range (inject_Z n)).
  { split; [change 0 with (inject_Z 0) | change 180 with (inject_Z 180)];
      rewrite <- Zle_Qle; assumption. }
  rewrite (angleToPulse_inside _ R). unfold Math_round. f_equal.
  replace (500 + (200 * n + 9) / 18)%Z with ((500 * 18 + (200 * n + 9)) / 18)%Z
    by (rewrite Z.div_add_l by lia; reflexivity).
  change ((500 * 18 + (200 * n + 9)) / 18)%Z
    with (Qfloor ((500 * 18 + (200 * n + 9)) # 18)).
  apply Qfloor_comp. unfold Qeq, inject_Z; cbn. lia.
Qed.

(** C1. [angleToPulse] gives 500, 1500 and 2500 microseconds at 0, 90 and
    180.  On every number that is not NaN it gives a whole number of
    microseconds from 500 to 2500, the linear map
    0.5 + (angle / 180) * 2.0 ms of the clamped angle rounded to a nearest
    whole microsecond, up to the error of the double arithmetic before the
    rounding (less than 0.001 microsecond); on whole degrees it is
    500 + (200 n + 9) / 18 exactly.  It is monotonically non-decreasing in
    the clamped angle.  NaN goes through as NaN. *)
Theorem angleToPulse_whole_monotone :
  Ext.angleToPulse (Ext.Fin 0) = Ext.Fin 500 /\
  Ext.angleToPulse (Ext.Fin 90) = Ext.Fin 1500 /\
  Ext.angleToPulse (Ext.Fin 180) = Ext.Fin 2500 /\
  Ext.angleToPulse Ext.NaN = Ext.NaN /\
  (forall a : Ext.number, a <> Ext.NaN ->
     exists (c : Q) (z : Z),
       Ext.Math_constrain a (Ext.Fin 0) (Ext.Fin 180) = Ext.Fin c /\
       0 <= c <= 180 /\
       Ext.angleToPulse a = Ext.Fin (inject_Z z) /\
       Ext.angleToPulse (Ext.Fin c) = Ext.Fin (inject_Z z) /\
       (500 <= z <= 2500)%Z /\
       - (501 # 1000) < inject_Z z - ((1 # 2) + (c / 180) * 2) * 1000 < 501 # 1000) /\
  (forall n : Z, (0 <= n <= 180)%Z ->
     Ext.angleToPulse (Ext.Fin (inject_Z n))
     = Ext.Fin (inject_Z (500 + (200 * n + 9) / 18))) /\
  (forall a b : Ext.number,
     Ext.le (Ext.Math_constrain a (Ext.Fin 0) (Ext.Fin 180))
            (Ext.Math_constrain b (Ext.Fin 0) (Ext.Fin 180)) = true ->
     Ext.le (Ext.angleToPulse (Ext.Math_constrain a (Ext.Fin 0) (Ext.Fin 180)))
            (Ext.angleToPulse (Ext.Math_constrain b (Ext.Fin 0) (Ext.Fin 180)))
     = true).
Proof.
  split; [reflexivity|]. split; [reflexivity|]. split; [reflexivity|].
  split; [reflexivity|]. split; [|split].
  - intros a N. destruct (constrain_angle_cases a N) as (c & C & R & _).
    destruct (angleToPulse_whole c R) as (z & P & B & T).
    exists c, z. split; [exact C|]. split; [exact R|].
    assert (E : Ext.angleToPulse a = Ext.angleToPulse (Ext.Fin c)).
    { unfold Ext.angleToPulse, Ext.ANGLE_RANGE. rewrite C, constrain_up.
      rewrite (Math_constrain_inside c 0 180 R). reflexivity. }
    rewrite E, angleToPulse_up, P.
    split; [reflexivity|]. split; [reflexivity|]. split; [exact B | lra].
  - intros n H. rewrite angleToPulse_up, (angleToPulse_whole_degree n H).
    reflexivity.
  - intros a b H.
    destruct (Ext.Math_constrain a (Ext.Fin 0) (Ext.Fin 180)) as [ca | | |] eqn:Ca;
      destruct (Ext.Math_constrain b (Ext.Fin 0) (Ext.Fin 180)) as [cb | | |] eqn:Cb;
      try discriminate H;
      try (destruct a as [qa | | |]; [rewrite constrain_up in Ca|..]; discriminate Ca);
      try (destruct b as [qb | | |]; [rewrite constrain_up in Cb|..]; discriminate Cb).
    rewrite !angleToPulse_up. cbn [Ext.le] in *.
    apply Qle_bool_iff. apply Qle_bool_iff in H. apply angleToPulse_mono. exact H.
Qed.

Lemma angleToPulse_whole_monotone_witness :
  Ext.le (Ext.angleToPulse (Ext.Math_constrain Ext.NInf (Ext.Fin 0) (Ext.Fin 180)))
         (Ext.angleToPulse (Ext.Math_constrain (Ext.Fin 45) (Ext.Fin 0) (Ext.Fin 180)))
  = true /\
  Ext.angleToPulse (Ext.Fin (inject_Z 45))
  = Ext.Fin (inject_Z (500 + (200 * 45 + 9) / 18)).
Proof.
  destruct angleToPulse_whole_monotone as (_ & _ & _ & _ & _ & D & M).
  split; [apply M; reflexivity | apply D; lia].
Defined.

(** C2. After [setAngle(a)], [getAngle()] returns [Math.constrain(a, 0, 180)]
    for every number [a]: 0 for a number below 0 (-10, minus infinity), 180
    for one above 180 (200, infinity), the number itself in between, always
    in [0,180] unless [a] is NaN, which the clamp lets through.  No input
    is rejected. *)
Theorem setAngle_then_getAngle_all (a : Ext.number) (this : Ext.Servo)
    (b : Ext.Board) :
  let got := Ext.Servo_getAngle (fst (Ext.Servo_setAngle a this b)) in
  got = Ext.Math_constrain a (Ext.Fin 0) (Ext.Fin 180) /\
  (Ext.lt a (Ext.Fin 0) = true -> got = Ext.Fin 0) /\
  (Ext.gt a (Ext.Fin 180) = true -> got = Ext.Fin 180) /\
  (Ext.lt a (Ext.Fin 0) = false -> Ext.gt a (Ext.Fin 180) = false -> got = a) /\
  (a <> Ext.NaN -> exists c, got = Ext.Fin c /\ 0 <= c <= 180) /\
  Ext.Servo_getAngle (fst (Ext.Servo_setAngle (Ext.Fin (-10)) this b)) = Ext.Fin 0 /\
  Ext.Servo_getAngle (fst (Ext.Servo_setAngle (Ext.Fin 200) this b)) = Ext.Fin 180 /\
  Ext.Servo_getAngle (fst (Ext.Servo_setAngle Ext.NaN this b)) = Ext.NaN.
Proof.
  intros got. unfold got, Ext.Servo_getAngle, Ext.Servo_setAngle, Ext.ANGLE_RANGE.
  cbn [fst Ext.currentAngle].
  split; [reflexivity|]. split; [|split; [|split; [|split]]].
  - intros H. unfold Ext.Math_constrain. rewrite H. reflexivity.
  - intros H. unfold Ext.Math_constrain. rewrite H.
    destruct (Ext.lt a (Ext.Fin 0)) eqn:L; [|reflexivity].
    exfalso. unfold Ext.gt in H. destruct a; cbn in *; try discriminate.
    apply Qlt_bool_iff in L, H. lra.
  - intros L G. unfold Ext.Math_constrain. rewrite L, G. reflexivity.
  - intros N. destruct (constrain_angle_cases a N) as (c & C & R & _).
    exists c. split; [exact C | exact R].
  - repeat split; reflexivity.
Qed.

Lemma setAngle_then_getAngle_all_witness :
  Ext.Servo_getAngle
    (fst (Ext.Servo_setAngle Ext.PInf (fst (Ext.Servo_new 0%Z Ext.Board_init))
            Ext.Board_init))
  = Ext.Fin 180.
Proof.
  destruct (setAngle_then_getAngle_all Ext.PInf
              (fst (Ext.Servo_new 0%Z Ext.Board_init)) Ext.Board_init)
    as (_ & _ & G & _).
  apply G. reflexivity.
Defined.

(** ** The sweep on all numbers *)

(** With the button never pressed, a sweep on finite arguments returns, as
    in the first embedding. *)
Lemma Ext_sweep_run_never (startAngle endAngle speed cycles : Q)
    (this : Servo) (b : Board) :
  let s := Math_constrain startAngle 0 ANGLE_RANGE in
  let e := Math_constrain endAngle 0 ANGLE_RANGE in
  exists k st,
    (1 <= k <= 361 * Z.to_nat (cycles_wanted cycles))%nat /\
    exits_at s e (Math_max 1 cycles) k (sweep_init s e) /\
    Ext.Servo_sweep_run k never_pressed (Ext.Fin startAngle) (Ext.Fin endAngle)
      (Ext.Fin speed) (Ext.Fin cycles) (up_servo this) (up_board b)
      = Some (up_loop st) /\
    l_vars st = advance_n s e k (sweep_init s e) /\
    polls (l_board st) = (polls b + k)%nat /\
    cycleCount (l_vars st) == inject_Z (cycles_wanted cycles) /\
    forward (l_vars st) = false.
Proof.
  intros s e.
  destruct (Servo_sweep_run_never startAngle endAngle speed cycles this b)
    as (k & st & Hk & E & L & V & P & C & F).
  exists k, st. rewrite Servo_sweep_run_up, L.
  repeat (split; [assumption || reflexivity|]). exact F.
Qed.

(** With cycles infinite the test of the [while] never fails: only the
    button ends the loop. *)
Lemma Ext_sweep_loop_infinite (fuel : nat) (s e d : Q) (st : Loop) :
  Ext.sweep_loop fuel never_pressed (Ext.Fin s) (Ext.Fin e) (Ext.Fin d) Ext.PInf
    (up_loop st) = None.
Proof.
  revert st. induction fuel as [|fuel IH]; intros st; [reflexivity|].
  cbn [Ext.sweep_loop]. change (Ext.lt _ Ext.PInf) with true. cbv iota.
  rewrite sweep_body_up.
  destruct (sweep_body_spec never_pressed s e d st) as (Hb & _).
  rewrite Hb. unfold never_pressed at 1. apply IH.
Qed.

(** What one run of the body does to [forward] and to the counter, on all
    numbers: [cycleCount++] exactly when a forward leg ends. *)
Lemma Ext_sweep_advance_cases (s e : Ext.number) (v : Ext.SweepVars) :
  let v1 := Ext.sweep_advance s e v in
  (Ext.forward v = true /\ Ext.forward v1 = false /\
   Ext.cycleCount v1 = Ext.add (Ext.cycleCount v) (Ext.Fin 1))
  \/ (Ext.forward v = false /\ Ext.forward v1 = true /\
       Ext.cycleCount v1 = Ext.cycleCount v)
  \/ (Ext.forward v1 = Ext.forward v /\ Ext.cycleCount v1 = Ext.cycleCount v).
Proof.
  unfold Ext.sweep_advance.
  destruct (Ext.forward v) eqn:F;
    destruct (Ext.at_bound s e (Ext.add (Ext.current v) (Ext.step v)));
    cbn [Ext.forward Ext.cycleCount].
  - left. repeat split; reflexivity.
  - right; right. split; reflexivity.
  - right; left. repeat split; reflexivity.
  - right; right. split; reflexivity.
Qed.

(** C3, as the code has it.  In every run of the loop body the counter goes
    up, by [cycleCount++], exactly when a forward leg ends (a
    forward-to-backward reversal), never when a backward leg ends.  On
    finite arguments with cycles at most 2^53 and the button never pressed
    the sweep returns, leaving the loop at such a reversal with the counter
    at the least integer not below [Math.max(1, cycles)].  Between whole
    degrees, where the steps are counted exactly: at every moment the
    counter equals the number of forward-to-backward reversals so far, and
    the sweep completes as many forward legs as cycles asked for and one
    backward leg fewer. *)
Theorem sweep_counts_forward_legs_finite (startAngle endAngle speed cycles : Q)
    (this : Servo) (b : Board) :
  cycles <= MAX_COUNT ->
  (forall (s e : Ext.number) (v : Ext.SweepVars),
     let v1 := Ext.sweep_advance s e v in
     (Ext.forward v = true /\ Ext.forward v1 = false /\
      Ext.cycleCount v1 = Ext.add (Ext.cycleCount v) (Ext.Fin 1))
     \/ (Ext.forward v = false /\ Ext.forward v1 = true /\
          Ext.cycleCount v1 = Ext.cycleCount v)
     \/ (Ext.forward v1 = Ext.forward v /\ Ext.cycleCount v1 = Ext.cycleCount v)) /\
  (exists fuel st,
     Ext.Servo_sweep_run fuel never_pressed (Ext.Fin startAngle) (Ext.Fin endAngle)
       (Ext.Fin speed) (Ext.Fin cycles) (up_servo this) (up_board b) = Some st /\
     (exists c, Ext.cycleCount (Ext.l_vars st) = Ext.Fin c /\
                c == inject_Z (cycles_wanted cycles)) /\
     Ext.forward (Ext.l_vars st) = false) /\
  (forall a z : Z,
     let s := Math_constrain (inject_Z a) 0 ANGLE_RANGE in
     let e := Math_constrain (inject_Z z) 0 ANGLE_RANGE in
     exists k st,
       Ext.Servo_sweep_run k never_pressed (Ext.Fin (inject_Z a))
         (Ext.Fin (inject_Z z)) (Ext.Fin speed) (Ext.Fin cycles)
         (up_servo this) (up_board b) = Some st /\
       Ext.polls (Ext.l_board st) = (polls b + k)%nat /\
       (forall i, (i <= k)%nat ->
          cycleCount (advance_n s e i (sweep_init s e))
          == inject_Z (Z.of_nat (reversals s e false i (sweep_init s e)))) /\
       Z.of_nat (reversals s e false k (sweep_init s e)) = cycles_wanted cycles /\
       Z.of_nat (reversals s e true k (sweep_init s e))
         = (cycles_wanted cycles - 1)%Z).
Proof.
  intros _. split; [apply Ext_sweep_advance_cases|]. split.
  - destruct (Ext_sweep_run_never startAngle endAngle speed cycles this b)
      as (k & st & _ & _ & L & _ & _ & C & F).
    exists k, (up_loop st). split; [exact L|].
    split; [exists (cycleCount (l_vars st)); split; [reflexivity | exact C]|].
    exact F.
  - intros a z s e.
    destruct (Ext_sweep_run_never (inject_Z a) (inject_Z z) speed cycles this b)
      as (k & st & Hk & E & L & V & P & C & F).
    fold s e in E, V. exists k, (up_loop st).
    destruct (reversals_count s e k (sweep_init s e)) as [RC RD].
    rewrite <- V in RC, RD. rewrite F in RD.
    cbn [sweep_init forward cycleCount Z.b2z] in RC, RD.
    assert (D : Z.of_nat (reversals s e false k (sweep_init s e))
                = cycles_wanted cycles).
    { apply inject_Z_injective. rewrite <- C, RC. lra. }
    split; [exact L|]. split; [exact P|]. split; [|split; [exact D | lia]].
    intros i _. destruct (reversals_count s e i (sweep_init s e)) as [RCi _].
    rewrite RCi. cbn [sweep_init cycleCount]. lra.
Qed.

Lemma sweep_counts_forward_legs_finite_witness :
  exists fuel st,
    Ext.Servo_sweep_run fuel never_pressed (Ext.Fin 0) (Ext.Fin 180)
      (Ext.Fin 10) (Ext.Fin 2) (up_servo (fst (Servo_new 0%Z Board_init)))
      (up_board Board_init) = Some st /\
    Ext.forward (Ext.l_vars st) = false.
Proof.
  assert (H : 2 <= MAX_COUNT) by (unfold MAX_COUNT; lra).
  destruct (sweep_counts_forward_legs_finite 0 180 10 2
              (fst (Servo_new 0%Z Board_init)) Board_init H)
    as (_ & (fuel & st & L & _ & F) & _).
  exists fuel, st. split; [exact L | exact F].
Defined.

(** C4, as the code has it.  With [startAngle == endAngle], finite, and
    cycles at most 2^53, every finite position satisfies the bound check,
    so each run of the body reverses: with the button never pressed the
    sweep returns on its own, after exactly 2 n - 1 runs of the body for n
    cycles asked for. *)
Theorem sweep_equal_angles_terminates_finite
    (startAngle endAngle speed cycles : Q) (this : Servo) (b : Board) :
  startAngle == endAngle -> cycles <= MAX_COUNT ->
  let s := Math_constrain startAngle 0 ANGLE_RANGE in
  let e := Math_constrain endAngle 0 ANGLE_RANGE in
  let k := (2 * Z.to_nat (cycles_wanted cycles) - 1)%nat in
  (forall c : Q, Ext.at_bound (Ext.Fin s) (Ext.Fin e) (Ext.Fin c) = true) /\
  exists st,
    Ext.Servo_sweep_run k never_pressed (Ext.Fin startAngle) (Ext.Fin endAngle)
      (Ext.Fin speed) (Ext.Fin cycles) (up_servo this) (up_board b) = Some st /\
    Ext.polls (Ext.l_board st) = (polls b + k)%nat /\
    (exists c, Ext.cycleCount (Ext.l_vars st) = Ext.Fin c /\
               c == inject_Z (cycles_wanted cycles)).
Proof.
  intros Eq _ s e k.
  destruct (sweep_equal_angles_exact startAngle endAngle speed cycles this b Eq)
    as (A & st & L & _ & P & C).
  fold s e k in A, L, P. split; [exact A|].
  exists (up_loop st). rewrite Servo_sweep_run_up, L.
  split; [reflexivity|]. split; [exact P|].
  exists (cycleCount (l_vars st)). split; [reflexivity | exact C].
Qed.

Lemma sweep_equal_angles_terminates_finite_witness :
  exists st,
    Ext.Servo_sweep_run 5 never_pressed (Ext.Fin (90 # 2)) (Ext.Fin 45)
      (Ext.Fin 5) (Ext.Fin 3) (up_servo (fst (Servo_new 0%Z Board_init)))
      (up_board Board_init) = Some st /\
    Ext.polls (Ext.l_board st) = 5%nat.
Proof.
  assert (Eq : (90 # 2) == 45) by reflexivity.
  assert (H : 3 <= MAX_COUNT) by (unfold MAX_COUNT; lra).
  destruct (sweep_equal_angles_terminates_finite (90 # 2) 45 5 3
              (fst (Servo_new 0%Z Board_init)) Board_init Eq H)
    as (_ & st & L & P & _).
  exists st. split; [exact L | exact P].
Defined.

(** C10, as the code has it.  On finite arguments with cycles at most 2^53
    and the button never pressed, every sweep returns after finitely many
    runs of the body: at most 361 for each cycle asked for.  With
    [startAngle == endAngle] the first position after the start is already
    at or below [startAngle]: the first run of the body counts a cycle. *)
Theorem sweep_terminates_finite (startAngle endAngle speed cycles : Q)
    (this : Servo) (b : Board) :
  cycles <= MAX_COUNT ->
  (exists k st,
     (k <= 361 * Z.to_nat (cycles_wanted cycles))%nat /\
     Ext.Servo_sweep_run k never_pressed (Ext.Fin startAngle) (Ext.Fin endAngle)
       (Ext.Fin speed) (Ext.Fin cycles) (up_servo this) (up_board b) = Some st /\
     Ext.polls (Ext.l_board st) = (polls b + k)%nat) /\
  (exists r,
     Ext.Servo_sweep (361 * Z.to_nat (cycles_wanted cycles)) never_pressed
       (Ext.Fin startAngle) (Ext.Fin endAngle) (Ext.Fin speed) (Ext.Fin cycles)
       (up_servo this) (up_board b) = Some r) /\
  (let s := Ext.Math_constrain (Ext.Fin startAngle) (Ext.Fin 0) Ext.ANGLE_RANGE in
   let v0 := Ext.sweep_init s s in
   Ext.le (Ext.add (Ext.current v0) (Ext.step v0)) s = true /\
   Ext.forward (Ext.sweep_advance s s v0) = false /\
   exists c, Ext.cycleCount (Ext.sweep_advance s s v0) = Ext.Fin c /\ c == 1).
Proof.
  intros _. split; [|split].
  - destruct (Ext_sweep_run_never startAngle endAngle speed cycles this b)
      as (k & st & Hk & _ & L & _ & P & _).
    exists k, (up_loop st). repeat split; [lia | exact L | exact P].
  - destruct (Servo_sweep_run_returns never_pressed startAngle endAngle speed
                cycles this b) as (st & L).
    rewrite Servo_sweep_up. unfold Servo_sweep. rewrite L. cbn. eauto.
  - unfold Ext.ANGLE_RANGE. rewrite constrain_up.
    set (s := Math_constrain startAngle 0 180).
    rewrite sweep_init_up, sweep_advance_up.
    assert (St : step (sweep_init s s) = -1).
    { unfold sweep_init; cbn [step]. case_lt; [lra | reflexivity]. }
    split.
    + cbn [up_vars Ext.current Ext.step Ext.add Ext.le]. rewrite St.
      apply Qle_bool_iff. unfold sweep_init; cbn [current]. lra.
    + destruct (always_fwd s s (sweep_init s s)) as [F C]; [lra | reflexivity |].
      split; [exact F|]. eexists. split; [reflexivity|].
      rewrite C. reflexivity.
Qed.

Lemma sweep_terminates_finite_witness :
  exists r,
    Ext.Servo_sweep (361 * Z.to_nat (cycles_wanted 1)) never_pressed
      (Ext.Fin 0) (Ext.Fin 180) (Ext.Fin 10) (Ext.Fin 1)
      (up_servo (fst (Servo_new 0%Z Board_init))) (up_board Board_init) = Some r.
Proof.
  assert (H : 1 <= MAX_COUNT) by (unfold MAX_COUNT; lra).
  apply (sweep_terminates_finite 0 180 10 1 (fst (Servo_new 0%Z Board_init))
           Board_init H).
Defined.

(** A loop whose locals no longer change, with the test of the [while]
    true, does not return while the button is not pressed. *)
Lemma Ext_sweep_loop_stuck (fuel : nat) (s e d cycles : Ext.number)
    (st : Ext.Loop) :
  Ext.sweep_advance s e (Ext.l_vars st) = Ext.l_vars st ->
  Ext.lt (Ext.cycleCount (Ext.l_vars st)) cycles = true ->
  Ext.sweep_loop fuel never_pressed s e d cycles st = None.
Proof.
  revert st. induction fuel as [|fuel IH]; intros st A G; cbn [Ext.sweep_loop];
    rewrite G; [reflexivity|].
  unfold Ext.sweep_body, Ext.buttonIsPressed, never_pressed.
  destruct (Ext.Servo_setAngle _ _ _) as [this1 b1].
  apply IH; cbn [Ext.l_vars]; rewrite A; assumption.
Qed.

(** C10, the claim as stated fails.  With cycles infinite, [sweep] never
    returns while the button is not pressed; with the start angle NaN the
    position is NaN, no bound check holds, the counter stays at 0 and the
    sweep never returns either. *)
Lemma sweep_infinite_cycles_never_returns :
  ~ (exists fuel st,
       Ext.Servo_sweep_run fuel never_pressed (Ext.Fin 0) (Ext.Fin 180)
         (Ext.Fin 10) Ext.PInf (fst (Ext.Servo_new 0%Z Ext.Board_init))
         Ext.Board_init = Some st) /\
  ~ (exists fuel st,
       Ext.Servo_sweep_run fuel never_pressed Ext.NaN (Ext.Fin 180)
         (Ext.Fin 10) (Ext.Fin 1) (fst (Ext.Servo_new 0%Z Ext.Board_init))
         Ext.Board_init = Some st).
Proof.
  split.
  - intros (fuel & st & H).
    pose proof (Ext_sweep_loop_infinite fuel 0 180 10
                  {| l_this := fst (Servo_new 0%Z Board_init);
                     l_board := Board_init; l_vars := sweep_init 0 180 |}) as N.
    unfold Ext.Servo_sweep_run in H.
    change (Ext.sweep_loop fuel never_pressed (Ext.Fin 0) (Ext.Fin 180)
              (Ext.Fin 10) Ext.PInf
              (up_loop {| l_this := fst (Servo_new 0%Z Board_init);
                          l_board := Board_init; l_vars := sweep_init 0 180 |})
            = Some st) in H.
    rewrite N in H. discriminate.
  - intros (fuel & st & H). unfold Ext.Servo_sweep_run in H.
    rewrite Ext_sweep_loop_stuck in H; [discriminate | reflexivity | reflexivity].
Qed.

(** ** No input is rejected *)







(** ** The stored angle *)

Lemma new_up (p : AnalogPin) (b : Board) :
  Ext.Servo_new p (up_board b) = up_result (Servo_new p b).
Proof.
  unfold Ext.Servo_new, Servo_new, up_result, up_servo, up_board, Ext.emit, emit.
  cbn [fst snd Ext.log Ext.polls log polls pin currentAngle isActive].
  rewrite map_app. reflexivity.
Qed.

(** C9, as the code has it.  The stored angle of a controller is 90 after
    construction, and lies in [0,180] after any sequence of [setAngle],
    [sweep], [stop] and [getAngle] calls with finite arguments and cycles at
    most 2^53, each of which returns.  The position variable of [sweep] does
    leave [0,180]: after the first step of [sweep(180, 0, 5, 1)] it is 181,
    while the stored angle is in range. *)
Theorem currentAngle_in_range_finite (p : AnalogPin) (b0 : Board)
    (button : nat -> bool) (cs : list Call) :
  Forall countable_call cs ->
  let this0 := fst (Ext.Servo_new p (up_board b0)) in
  let b := snd (Ext.Servo_new p (up_board b0)) in
  Ext.currentAngle this0 = Ext.Fin 90 /\
  (exists fuel this' b',
     (forall extra,
        Ext.run_calls (fuel + extra) button (map up_call cs) this0 b
        = Some (this', b')) /\
     Ext.in_range (Ext.Servo_getAngle this') = true) /\
  (exists st,
     Ext.Servo_sweep_run 1 never_pressed (Ext.Fin 180) (Ext.Fin 0) (Ext.Fin 5)
       (Ext.Fin 1) this0 b = Some st /\
     Ext.current (Ext.l_vars st) = Ext.Fin 181 /\
     Ext.in_range (Ext.current (Ext.l_vars st)) = false /\
     Ext.in_range (Ext.currentAngle (Ext.l_this st)) = true).
Proof.
  intros _ this0 b. split; [reflexivity|]. split.
  - unfold this0, b. rewrite new_up. cbn [up_result fst snd].
    destruct (run_calls_in_range button cs (fst (Servo_new p b0))
                (snd (Servo_new p b0))) as (fuel & this' & b' & E & R).
    + unfold in_range; cbn. lra.
    + exists fuel, (up_servo this'), (up_board b'). split.
      * intros extra. rewrite run_calls_up.
        rewrite (run_calls_more_fuel fuel (fuel + extra) _ _ _ _ _ E) by lia.
        reflexivity.
      * unfold Ext.in_range, Ext.Servo_getAngle, up_servo.
        cbn [Ext.currentAngle Ext.le]. destruct R as [R0 R180].
        apply andb_true_iff. split; apply Qle_bool_iff; assumption.
  - eexists. split; [vm_compute; reflexivity|].
    repeat split; reflexivity.
Qed.

Lemma currentAngle_in_range_finite_witness :
  exists fuel this' b',
    Ext.run_calls fuel never_pressed
      (map up_call [CallSetAngle 200; CallSweep 10 20 5 1; CallStop])
      (fst (Ext.Servo_new 0%Z (up_board Board_init)))
      (snd (Ext.Servo_new 0%Z (up_board Board_init))) = Some (this', b') /\
    Ext.in_range (Ext.Servo_getAngle this') = true.
Proof.
  assert (H : Forall countable_call
                [CallSetAngle 200; CallSweep 10 20 5 1; CallStop]).
  { constructor; [exact I|]. constructor; [cbn; unfold MAX_COUNT; lra|].
    constructor; [exact I | constructor]. }
  destruct (currentAngle_in_range_finite 0%Z Board_init never_pressed _ H)
    as (_ & (fuel & this' & b' & E & R) & _).
  exists fuel, this', b'. split; [|exact R].
  rewrite <- (E 0%nat), Nat.add_0_r. reflexivity.
Defined.

(** C9, the claim as stated fails.  [setAngle(NaN)] stores NaN: the clamp
    lets NaN through, and the stored angle is not in [0,180]. *)
Lemma setAngle_NaN_out_of_range :
  exists this' b',
    Ext.run_calls 0 never_pressed [Ext.CallSetAngle Ext.NaN]
      (fst (Ext.Servo_new 0%Z Ext.Board_init))
      (snd (Ext.Servo_new 0%Z Ext.Board_init)) = Some (this', b') /\
    Ext.Servo_getAngle this' = Ext.NaN /\
    Ext.in_range (Ext.Servo_getAngle this') = false.
Proof.
  do 2 eexists. split; [reflexivity|]. split; reflexivity.
Qed.

(** * Further properties, on whole degrees

    The properties of this part speak of the positions and of the number of
    steps of a sweep.  They are stated for angles that are whole degrees and
    for cycles at most 2^53: there the doubles of the source compute
    exactly what the exact arithmetic computes. *)

(** X1. On whole degrees the conversion is integer arithmetic: for an
    integer [n] from 0 to 180 the pulse is 500 + (200 n + 9) / 18 with the
    division rounding down, a whole number from 500 to 2500. *)
Theorem angleToPulse_integer_degrees (n : Z) :
  (0 <= n <= 180)%Z ->
  angleToPulse (inject_Z n) = inject_Z (500 + (200 * n + 9) / 18) /\
  (500 <= 500 + (200 * n + 9) / 18 <= 2500)%Z.
Proof.
  intros H. split; [apply angleToPulse_whole_degree; exact H|].
  assert (0 <= (200 * n + 9) / 18)%Z by (apply Z.div_pos; lia).
  assert ((200 * n + 9) / 18 < 2001)%Z by (apply Z.div_lt_upper_bound; lia).
  lia.
Qed.

Lemma angleToPulse_integer_degrees_witness :
  angleToPulse (inject_Z 45) = inject_Z (500 + (200 * 45 + 9) / 18).
Proof.
  apply (angleToPulse_integer_degrees 45). lia.
Defined.

(** X4. A sweep between whole degrees with cycles at most 2^53 that returns
    has run its loop body [k >= 1] times and has issued exactly, for each
    run in turn, the servo write of the clamped position and one pause of
    [Math.round(100 / speed)] ms: nothing else is written.  The button was
    read [k] times; the loop went on while the counter was below the cycles
    and the button read released, and ended because the counter reached the
    cycles or the last read was pressed.  The stored angle is the last
    position written. *)
Theorem sweep_trace_whole_degrees (fuel : nat) (button : nat -> bool)
    (startAngle endAngle : Z) (speed cycles : Q)
    (this : Servo) (b : Board) (st : Loop) :
  cycles <= MAX_COUNT ->
  Servo_sweep_run fuel button (inject_Z startAngle) (inject_Z endAngle)
    speed cycles this b = Some st ->
  let s := Math_constrain (inject_Z startAngle) 0 ANGLE_RANGE in
  let e := Math_constrain (inject_Z endAngle) 0 ANGLE_RANGE in
  let v0 := sweep_init s e in
  exists j, (S j <= fuel)%nat /\
    log (l_board st)
      = log b ++ sweep_events (pin this) (sweep_delay speed) s e (S j) v0 /\
    polls (l_board st) = (polls b + S j)%nat /\
    l_vars st = advance_n s e (S j) v0 /\
    (forall i, (i <= j)%nat ->
       running (Math_max 1 cycles) (advance_n s e i v0) = true /\
       ((i < j)%nat -> button (polls b + i)%nat = false)) /\
    (running (Math_max 1 cycles) (advance_n s e (S j) v0) = false \/
     button (polls b + j)%nat = true) /\
    pin (l_this st) = pin this /\
    isActive (l_this st) = true /\
    Servo_getAngle (l_this st)
      = Math_constrain (current (advance_n s e j v0)) 0 ANGLE_RANGE.
Proof.
  intros _ Run. exact (sweep_trace_exact _ _ _ _ _ _ _ _ _ Run).
Qed.

Lemma sweep_trace_whole_degrees_witness :
  exists st j,
    Servo_sweep_run 4 (fun i => Nat.eqb i 3) (inject_Z 0) (inject_Z 180) 5 2
      (fst (Servo_new 0%Z Board_init)) Board_init = Some st /\
    polls (l_board st) = (polls Board_init + S j)%nat.
Proof.
  destruct (Servo_sweep_run 4 (fun i => Nat.eqb i 3) (inject_Z 0) (inject_Z 180)
              5 2 (fst (Servo_new 0%Z Board_init)) Board_init) as [st|] eqn:E;
    [|vm_compute in E; discriminate].
  assert (H : 2 <= MAX_COUNT) by (unfold MAX_COUNT; lra).
  destruct (sweep_trace_whole_degrees _ _ _ _ _ _ _ _ _ H E) as (j & _ & _ & P & _).
  exists st, j. split; [reflexivity | exact P].
Defined.

(** X5. The button is read only after a step: a sweep with cycles at most
    2^53 called with the button already pressed still moves the servo to
    the clamped start angle, pauses once, and only then returns. *)
Theorem sweep_pressed_at_once_counted (fuel : nat) (button : nat -> bool)
    (startAngle endAngle speed cycles : Q) (this : Servo) (b : Board) :
  cycles <= MAX_COUNT -> button (polls b) = true ->
  let s := Math_constrain startAngle 0 ANGLE_RANGE in
  exists st,
    Servo_sweep_run (S fuel) button startAngle endAngle speed cycles this b = Some st /\
    log (l_board st)
      = log b ++ [ServoWritePin (pin this) (angleToPulse s); Pause (sweep_delay speed)] /\
    polls (l_board st) = S (polls b) /\
    Servo_getAngle (l_this st) = s /\
    isActive (l_this st) = true.
Proof.
  intros _ P. exact (sweep_pressed_at_once_exact fuel _ _ _ _ _ _ _ P).
Qed.

Lemma sweep_pressed_at_once_counted_witness :
  exists st,
    Servo_sweep_run 1 (fun _ => true) 30 150 5 3
      (fst (Servo_new 0%Z Board_init)) Board_init = Some st /\
    Servo_getAngle (l_this st) = Math_constrain 30 0 ANGLE_RANGE.
Proof.
  assert (H : 3 <= MAX_COUNT) by (unfold MAX_COUNT; lra).
  destruct (sweep_pressed_at_once_counted 0 (fun _ => true) 30 150 5 3
              (fst (Servo_new 0%Z Board_init)) Board_init H eq_refl)
    as (st & L & _ & _ & A & _).
  exists st. split; [exact L | exact A].
Defined.

(** X6. A sweep with cycles at most 2^53 does not start from where the
    servo is: its result depends on the pin only, not on the angle stored
    before or on the active flag. *)
Theorem sweep_ignores_previous_state_counted (fuel : nat) (button : nat -> bool)
    (startAngle endAngle speed cycles : Q) (this this' : Servo) (b : Board) :
  cycles <= MAX_COUNT -> pin this = pin this' ->
  Servo_sweep fuel button startAngle endAngle speed cycles this b
  = Servo_sweep fuel button startAngle endAngle speed cycles this' b.
Proof.
  intros _ P. exact (sweep_ignores_previous_state_exact fuel _ _ _ _ _ _ _ _ P).
Qed.

Lemma sweep_ignores_previous_state_counted_witness :
  exists r,
    Servo_sweep 20 never_pressed 20 40 5 1
      {| pin := 3%Z; currentAngle := 0; isActive := false |} Board_init = Some r /\
    Servo_sweep 20 never_pressed 20 40 5 1
      {| pin := 3%Z; currentAngle := 170; isActive := true |} Board_init = Some r.
Proof.
  assert (H : 1 <= MAX_COUNT) by (unfold MAX_COUNT; lra).
  destruct (Servo_sweep 20 never_pressed 20 40 5 1
              {| pin := 3%Z; currentAngle := 0; isActive := false |} Board_init)
    as [r|] eqn:E; [|vm_compute in E; discriminate].
  exists r. split; [reflexivity|].
  rewrite <- E. symmetry.
  apply (sweep_ignores_previous_state_counted 20 never_pressed 20 40 5 1
           {| pin := 3%Z; currentAngle := 0; isActive := false |}
           {| pin := 3%Z; currentAngle := 170; isActive := true |} Board_init H).
  reflexivity.
Defined.

(** X7. A sweep between whole degrees with the clamped start below the
    clamped end and cycles at most 2^53 never reaches the end angle: every
    position it writes is strictly below it (and less than 2 below the
    start), and so is the angle stored when it returns. *)
Theorem ascending_sweep_below_end_whole_degrees (fuel : nat) (button : nat -> bool)
    (startAngle endAngle : Z) (speed cycles : Q)
    (this : Servo) (b : Board) (st : Loop) :
  cycles <= MAX_COUNT ->
  Math_constrain (inject_Z startAngle) 0 ANGLE_RANGE
    < Math_constrain (inject_Z endAngle) 0 ANGLE_RANGE ->
  Servo_sweep_run fuel button (inject_Z startAngle) (inject_Z endAngle)
    speed cycles this b = Some st ->
  let s := Math_constrain (inject_Z startAngle) 0 ANGLE_RANGE in
  let e := Math_constrain (inject_Z endAngle) 0 ANGLE_RANGE in
  (forall i,
     let c := current (advance_n s e i (sweep_init s e)) in
     s - 2 < c /\ c < e /\ Math_constrain c 0 ANGLE_RANGE < e) /\
  Servo_getAngle (l_this st) < e.
Proof.
  intros _ Lt Run. exact (ascending_sweep_below_end_exact _ _ _ _ _ _ _ _ _ Lt Run).
Qed.

Lemma ascending_sweep_below_end_whole_degrees_witness :
  exists st,
    Servo_sweep_run 400 never_pressed (inject_Z 0) (inject_Z 180) 10 1
      (fst (Servo_new 0%Z Board_init)) Board_init = Some st /\
    Servo_getAngle (l_this st) < Math_constrain (inject_Z 180) 0 ANGLE_RANGE.
Proof.
  destruct (Servo_sweep_run 400 never_pressed (inject_Z 0) (inject_Z 180) 10 1
              (fst (Servo_new 0%Z Board_init)) Board_init) as [st|] eqn:E;
    [|vm_compute in E; discriminate].
  assert (H : 1 <= MAX_COUNT) by (unfold MAX_COUNT; lra).
  assert (Lt : Math_constrain (inject_Z 0) 0 ANGLE_RANGE
               < Math_constrain (inject_Z 180) 0 ANGLE_RANGE) by reflexivity.
  exists st. split; [reflexivity|].
  apply (ascending_sweep_below_end_whole_degrees _ _ _ _ _ _ _ _ _ H Lt E).
Defined.

(** X8. A sweep between whole degrees whose clamped angles are 2 degrees or
    more apart, with cycles at most 2^53, stays between them: every
    position it writes is from the start angle up to, but not including,
    the end angle, is written as it is (the clamp of [setAngle] does
    nothing), and the angle stored when the sweep returns lies there too. *)
Theorem wide_sweep_stays_inside_whole_degrees (fuel : nat) (button : nat -> bool)
    (startAngle endAngle : Z) (speed cycles : Q)
    (this : Servo) (b : Board) (st : Loop) :
  cycles <= MAX_COUNT ->
  Math_constrain (inject_Z startAngle) 0 ANGLE_RANGE + 2
    <= Math_constrain (inject_Z endAngle) 0 ANGLE_RANGE ->
  Servo_sweep_run fuel button (inject_Z startAngle) (inject_Z endAngle)
    speed cycles this b = Some st ->
  let s := Math_constrain (inject_Z startAngle) 0 ANGLE_RANGE in
  let e := Math_constrain (inject_Z endAngle) 0 ANGLE_RANGE in
  (forall i,
     let c := current (advance_n s e i (sweep_init s e)) in
     s <= c /\ c < e /\ Math_constrain c 0 ANGLE_RANGE = c) /\
  s <= Servo_getAngle (l_this st) /\ Servo_getAngle (l_this st) < e.
Proof.
  intros _ W Run. exact (wide_sweep_stays_inside_exact _ _ _ _ _ _ _ _ _ W Run).
Qed.

Lemma wide_sweep_stays_inside_whole_degrees_witness :
  exists st,
    Servo_sweep_run 100 never_pressed (inject_Z 30) (inject_Z 40) 10 2
      (fst (Servo_new 0%Z Board_init)) Board_init = Some st /\
    Math_constrain (inject_Z 30) 0 ANGLE_RANGE <= Servo_getAngle (l_this st) /\
    Servo_getAngle (l_this st) < Math_constrain (inject_Z 40) 0 ANGLE_RANGE.
Proof.
  destruct (Servo_sweep_run 100 never_pressed (inject_Z 30) (inject_Z 40) 10 2
              (fst (Servo_new 0%Z Board_init)) Board_init) as [st|] eqn:E;
    [|vm_compute in E; discriminate].
  assert (H : 2 <= MAX_COUNT) by (unfold MAX_COUNT; lra).
  assert (W : Math_constrain (inject_Z 30) 0 ANGLE_RANGE + 2
              <= Math_constrain (inject_Z 40) 0 ANGLE_RANGE)
    by (vm_compute; discriminate).
  exists st. split; [reflexivity|].
  apply (wide_sweep_stays_inside_whole_degrees _ _ _ _ _ _ _ _ _ H W E).
Defined.

(** X9. A sweep between whole degrees whose clamped end is not above its
    clamped start, with cycles at most 2^53, does not travel: every run of
    the body reverses, the positions are the start angle on even runs and
    one degree above it on odd runs, and the angle stored when the sweep
    returns is one of the two, clamped: never below the start angle. *)
Theorem descending_sweep_stuck_whole_degrees (fuel : nat) (button : nat -> bool)
    (startAngle endAngle : Z) (speed cycles : Q)
    (this : Servo) (b : Board) (st : Loop) :
  cycles <= MAX_COUNT ->
  Math_constrain (inject_Z endAngle) 0 ANGLE_RANGE
    <= Math_constrain (inject_Z startAngle) 0 ANGLE_RANGE ->
  Servo_sweep_run fuel button (inject_Z startAngle) (inject_Z endAngle)
    speed cycles this b = Some st ->
  let s := Math_constrain (inject_Z startAngle) 0 ANGLE_RANGE in
  let e := Math_constrain (inject_Z endAngle) 0 ANGLE_RANGE in
  (forall i,
     forward (advance_n s e i (sweep_init s e)) = Nat.even i /\
     current (advance_n s e i (sweep_init s e))
       == s + (if Nat.even i then 0 else 1)) /\
  (exists j,
     polls (l_board st) = (polls b + S j)%nat /\
     Servo_getAngle (l_this st)
       == Math_constrain (s + (if Nat.even j then 0 else 1)) 0 ANGLE_RANGE) /\
  s <= Servo_getAngle (l_this st) /\ Servo_getAngle (l_this st) <= s + 1.
Proof.
  intros _ D Run. exact (descending_sweep_stuck_exact _ _ _ _ _ _ _ _ _ D Run).
Qed.

Lemma descending_sweep_stuck_whole_degrees_witness :
  exists st,
    Servo_sweep_run 100 never_pressed (inject_Z 180) (inject_Z 0) 5 3
      (fst (Servo_new 0%Z Board_init)) Board_init = Some st /\
    Math_constrain (inject_Z 180) 0 ANGLE_RANGE <= Servo_getAngle (l_this st).
Proof.
  destruct (Servo_sweep_run 100 never_pressed (inject_Z 180) (inject_Z 0) 5 3
              (fst (Servo_new 0%Z Board_init)) Board_init) as [st|] eqn:E;
    [|vm_compute in E; discriminate].
  assert (H : 3 <= MAX_COUNT) by (unfold MAX_COUNT; lra).
  assert (D : Math_constrain (inject_Z 0) 0 ANGLE_RANGE
              <= Math_constrain (inject_Z 180) 0 ANGLE_RANGE)
    by (vm_compute; discriminate).
  exists st. split; [reflexivity|].
  apply (descending_sweep_stuck_whole_degrees _ _ _ _ _ _ _ _ _ H D E).
Defined.

(** X12. A sweep between whole degrees with the clamped start below the
    clamped end and cycles at most 2^53 that runs to completion (the button
    never pressed) leaves the servo at the far end, not back at the start:
    the stored angle is less than one degree below the end angle, and
    never the end angle itself. *)
Theorem ascending_sweep_rests_near_end_whole_degrees (fuel : nat)
    (startAngle endAngle : Z) (speed cycles : Q)
    (this : Servo) (b : Board) (st : Loop) :
  cycles <= MAX_COUNT ->
  Math_constrain (inject_Z startAngle) 0 ANGLE_RANGE
    < Math_constrain (inject_Z endAngle) 0 ANGLE_RANGE ->
  Servo_sweep_run fuel never_pressed (inject_Z startAngle) (inject_Z endAngle)
    speed cycles this b = Some st ->
  let e := Math_constrain (inject_Z endAngle) 0 ANGLE_RANGE in
  e - 1 <= Servo_getAngle (l_this st) /\ Servo_getAngle (l_this st) < e /\
  forward (l_vars st) = false.
Proof.
  intros _ Lt Run.
  exact (ascending_sweep_rests_near_end_exact _ _ _ _ _ _ _ _ Lt Run).
Qed.

Lemma ascending_sweep_rests_near_end_whole_degrees_witness :
  exists st,
    Servo_sweep_run 400 never_pressed (inject_Z 10) (inject_Z 60) 10 2
      (fst (Servo_new 0%Z Board_init)) Board_init = Some st /\
    Math_constrain (inject_Z 60) 0 ANGLE_RANGE - 1 <= Servo_getAngle (l_this st).
Proof.
  destruct (Servo_sweep_run 400 never_pressed (inject_Z 10) (inject_Z 60) 10 2
              (fst (Servo_new 0%Z Board_init)) Board_init) as [st|] eqn:E;
    [|vm_compute in E; discriminate].
  assert (H : 2 <= MAX_COUNT) by (unfold MAX_COUNT; lra).
  assert (Lt : Math_constrain (inject_Z 10) 0 ANGLE_RANGE
               < Math_constrain (inject_Z 60) 0 ANGLE_RANGE) by reflexivity.
  exists st. split; [reflexivity|].
  apply (ascending_sweep_rests_near_end_whole_degrees _ _ _ _ _ _ _ _ H Lt E).
Defined.

(** * The registry under whole programs *)

(** X10. Whatever a program does with the exported functions, from the start
    of the program on, when it has returned the registry is in step with
    the objects: there is exactly one controller per pin ever connected,
    filed under its own pin, no two pins share a controller, and the period
    of a pin was configured exactly once if the pin is connected and never
    otherwise. *)
Theorem registry_kept (fuel : nat) (button : nat -> bool) (cs : list WCall)
    (w : World) :
  run_world fuel button cs World_init = Some w ->
  (forall p r, servos w !! p = Some r ->
     exists sv, heap w !! r = Some sv /\ pin sv = p) /\
  (forall p q r, servos w !! p = Some r -> servos w !! q = Some r -> p = q) /\
  length (heap w) = size (servos w) /\
  (forall p, period_configs p (log (w_board w))
             = match servos w !! p with Some _ => 1%nat | None => 0%nat end).
Proof.
  intros Run.
  destruct (run_world_consistent button cs World_init consistent_init)
    as (fuel' & w' & E & ([B I] & Sz & Ob & Pc)).
  assert (w' = w) as ->.
  { pose proof (run_world_more_fuel fuel (fuel + fuel') _ _ _ _ Run ltac:(lia)) as R1.
    pose proof (run_world_more_fuel fuel' (fuel + fuel') _ _ _ _ E ltac:(lia)) as R2.
    congruence. }
  split; [|split; [exact I | split; [exact Sz | exact Pc]]].
  intros p r H. destruct (lookup_lt_is_Some_2 (heap w) r (B p r H)) as [sv Hsv].
  destruct (Ob r sv Hsv) as [K _].
  exists sv. split; [exact Hsv | apply (I _ _ r K H)].
Qed.

Lemma registry_kept_witness :
  exists w,
    run_world 50 never_pressed
      [WConnect 1%Z; WConnect 2%Z; WSetAngle 0%nat 200; WConnect 1%Z;
       WSweep 1%nat 10 20 5 1; WStop 0%nat] World_init = Some w /\
    length (heap w) = size (servos w).
Proof.
  destruct (run_world 50 never_pressed
              [WConnect 1%Z; WConnect 2%Z; WSetAngle 0%nat 200; WConnect 1%Z;
               WSweep 1%nat 10 20 5 1; WStop 0%nat] World_init) as [w|] eqn:E;
    [|vm_compute in E; discriminate].
  exists w. split; [reflexivity|].
  apply (registry_kept _ _ _ _ E).
Defined.
